(** * calibre-comicvine: the rate-limited, retried, cached catalog client

    A shallow embedding of [client.py] (the token bucket, the retry
    decorator, the cache decorator and the cover lookup) together with the
    two ranking functions exercised by [test_ranking.py].

    Conventions of the embedding.
    - Wall-clock time and the configured interval are rationals ([Q]); the
      float arithmetic of the source is read as exact arithmetic.
    - The persisted [JSONConfig] record, the clock, the random source and the
      remote catalog form one explicit [world] threaded through every call.
      [params.refresh()] re-reads the record this process wrote itself, so it
      is the identity here (no second writer is modelled), and the re-entrant
      lock has no effect on a single thread of calls.
    - A ghost [trace] records the observable steps (sleeps, token
      decrements, invocations of the wrapped operation); logging is omitted.
    - Exceptions are the ones [except Exception] can see. *)

From Stdlib Require Import ZArith QArith Qminmax Lia Lqa String Ascii List Bool.
From stdpp Require Import gmap strings.
Import ListNotations.

Local Open Scope Z_scope.

(** ** Python values and exceptions *)

#[local] Set Warnings "-register-all".
Inductive value : Type :=
| VNone
| VInt (z : Z)
| VStr (s : string)
| VList (l : list value).

(** The three handler classes of [retry_function]'s [try] statement, in the
    order of its [except] clauses. *)
Inductive exn : Type :=
| RateLimitExceededError (message : string)
| HTTPError (code : Z) (message : string)
| OtherException (type_name message : string).

Inductive outcome (A : Type) : Type :=
| Return (a : A)
| Raise (e : exn).
Arguments Return {A} a.
Arguments Raise {A} e.

(** ** Configuration and persisted state *)

(** [PREFS]: the keys of the settings store that the client reads. *)
Record prefs : Type := {
  request_interval : Q;
  request_batch_size : Z;
  retries : Z
}.

(** [JSONConfig('plugins/comicvine_tokens')]: keys [tokens] and [update]. *)
Record token_params : Type := {
  p_tokens : Z;
  p_update : Q
}.

Inductive event : Type :=
| Waited (delay : Q)      (* [time.sleep(delay)] inside [consume] *)
| Took                    (* [self.params['tokens'] -= 1] *)
| Called (retry : Z)      (* the call of [target_function] *)
| Jittered (delay : Q).   (* [time.sleep(random.random() / 2 + 0.1)] *)

Section Client.

Context {E : Type}.

Record world : Type := {
  params : token_params;
  clock : Q;
  trace : list event;
  entropy : nat -> Q;     (* the values [random.random()] will return *)
  draws : nat;            (* how many of them were drawn so far *)
  remote : E              (* state of the remote catalog *)
}.

(** A computation either returns, raises, or is cut off by the fuel bound
    of a [while] loop. *)
Inductive result (A : Type) : Type :=
| Returned (a : A) (w : world)
| Raised (e : exn) (w : world)
| Unfinished.
Arguments Returned {A} a w.
Arguments Raised {A} e w.
Arguments Unfinished {A}.

Definition M (A : Type) : Type := world -> result A.

Definition ret {A} (a : A) : M A := fun w => Returned a w.

Definition bind {A B} (m : M A) (k : A -> M B) : M B :=
  fun w =>
    match m w with
    | Returned a w' => k a w'
    | Raised e w' => Raised e w'
    | Unfinished => Unfinished
    end.

Definition raise {A} (e : exn) : M A := fun w => Raised e w.

Notation "'let*' x ':=' m 'in' k" := (bind m (fun x => k))
  (at level 10, x name, m at level 100, k at level 200).

Definition set_params (p : token_params) (w : world) : world :=
  {| params := p; clock := clock w; trace := trace w;
     entropy := entropy w; draws := draws w; remote := remote w |}.

Definition set_clock (t : Q) (w : world) : world :=
  {| params := params w; clock := t; trace := trace w;
     entropy := entropy w; draws := draws w; remote := remote w |}.

Definition set_remote (r : E) (w : world) : world :=
  {| params := params w; clock := clock w; trace := trace w;
     entropy := entropy w; draws := draws w; remote := r |}.

Definition emit (ev : event) : M unit :=
  fun w =>
    Returned tt
      {| params := params w; clock := clock w; trace := trace w ++ [ev];
         entropy := entropy w; draws := draws w; remote := remote w |}.

(** ** Primitives of the Python runtime *)

Definition Qltb (x y : Q) : bool := (Qnum x * QDen y <? Qnum y * QDen x)%Z.

(** [int(x)] on a float: truncation toward zero. *)
Definition py_int (x : Q) : Z := Z.quot (Qnum x) (QDen x).

(** [time.sleep(d)]: a negative argument is rejected, otherwise the clock
    moves on by [d]. *)
Definition sleep (d : Q) : M unit :=
  fun w =>
    if Qltb d 0
    then Raised (OtherException "IOError" "[Errno 22] Invalid argument") w
    else Returned tt (set_clock (clock w + d)%Q w).

(** [random.random()] *)
Definition random_random : M Q :=
  fun w =>
    Returned (entropy w (draws w))
      {| params := params w; clock := clock w; trace := trace w;
         entropy := entropy w; draws := S (draws w); remote := remote w |}.

(** [range(a, b)] *)
Definition py_range (a b : Z) : list Z :=
  map (fun i => a + Z.of_nat i) (seq 0 (Z.to_nat (b - a))).

Variable PREFS : prefs.

(** ** TokenBucket *)

(** The [tokens] property (client.py, lines 40-56). *)
Definition tokens : M Z :=
  fun w =>
    let p := params w in
    if p_tokens p <? request_batch_size PREFS then
      let now := clock w in
      let elapsed := (now - p_update p)%Q in
      if Qltb 0 elapsed then
        if Qeq_bool (request_interval PREFS) 0 then
          Raised (OtherException "ZeroDivisionError" "float division by zero") w
        else
          let new_tokens := py_int (elapsed * (1 / request_interval PREFS))%Q in
          if new_tokens =? 0 then Returned (p_tokens p) w
          else
            let t :=
              if new_tokens + p_tokens p <? request_batch_size PREFS
              then p_tokens p + new_tokens
              else request_batch_size PREFS in
            Returned t (set_params {| p_tokens := t; p_update := now |} w)
      else Returned (p_tokens p) w
    else Returned (p_tokens p) w.

(** The delay chosen in the body of [consume]'s loop (lines 32-35). *)
Definition consume_delay (interval time_since_last_request : Q) : Q :=
  if Qltb time_since_last_request interval
  then (interval - time_since_last_request)%Q
  else interval.

(** [while self.tokens < 1: ... time.sleep(delay)] (lines 31-37). *)
Fixpoint consume_wait (fuel : nat) (interval time_since_last_request : Q)
  : M unit :=
  match fuel with
  | O => fun _ => Unfinished
  | S fuel' =>
      let* t := tokens in
      if t <? 1 then
        let delay := consume_delay interval time_since_last_request in
        let* _ := sleep delay in
        let* _ := emit (Waited delay) in
        consume_wait fuel' interval time_since_last_request
      else ret tt
  end.

(** [self.params['tokens'] -= 1] (line 38). *)
Definition take_one : M unit :=
  fun w =>
    let p := params w in
    emit Took
      (set_params {| p_tokens := p_tokens p - 1; p_update := p_update p |} w).

(** [TokenBucket.consume] (lines 26-38). *)
Definition consume (fuel : nat) : M unit :=
  fun w =>
    let time_since_last_request := (clock w - p_update (params w))%Q in
    let interval := request_interval PREFS in
    (let* _ := consume_wait fuel interval time_since_last_request in
     take_one) w.

(** ** Callers of the bucket *)

(** What a client of the bucket can do between two observations: call
    [consume()], read [tokens], or let the wall clock move (by any amount,
    also backwards). *)
Inductive call : Type :=
| Consume
| ReadTokens
| TimePasses (d : Q).

Definition world_after {A} (r : result A) : option world :=
  match r with
  | Returned _ w => Some w
  | Raised _ w => Some w
  | Unfinished => None
  end.

Definition run_call (fuel : nat) (c : call) (w : world) : option world :=
  match c with
  | Consume => world_after (consume fuel w)
  | ReadTokens => world_after (tokens w)
  | TimePasses d => Some (set_clock (clock w + d)%Q w)
  end.

Fixpoint run_calls (fuel : nat) (cs : list call) (w : world) : option world :=
  match cs with
  | [] => Some w
  | c :: cs' =>
      match run_call fuel c w with
      | Some w' => run_calls fuel cs' w'
      | None => None
      end
  end.

(** ** retry_on_comicvine_error *)

(** A catalog operation: from its arguments and the state of the remote
    service to a value or an exception, and the next remote state. *)
Definition operation : Type := list value -> E -> outcome value * E.

(** What the decorators produce: a callable on the world. *)
Definition method : Type := list value -> M value.

Definition call_target (target_function : operation) (args : list value)
    (retry : Z) : M value :=
  fun w =>
    let (o, r) := target_function args (remote w) in
    let w' :=
      {| params := params w; clock := clock w;
         trace := trace w ++ [Called retry];
         entropy := entropy w; draws := draws w; remote := r |} in
    match o with
    | Return v => Returned v w'
    | Raise e => Raised e w'
    end.

(** [handle_rate_limit]: log, then the bare [raise] (lines 86-88). *)
Definition handle_rate_limit (e : exn) : M unit := raise e.

(** [handle_exception] (lines 90-97). *)
Definition handle_exception (retry : Z) (e : exn) : M unit :=
  if retry >=? retries PREFS then raise e
  else
    let* r := random_random in
    let delay := (r / 2 + (1 # 10))%Q in
    let* _ := sleep delay in
    emit (Jittered delay).

(** The [except] clauses of lines 101-109, tried in order. *)
Definition handler (retry : Z) (e : exn) : M unit :=
  match e with
  | RateLimitExceededError _ => handle_rate_limit e
  | HTTPError code _ =>
      if code =? 420 then handle_rate_limit e else handle_exception retry e
  | OtherException _ _ => handle_exception retry e
  end.

(** The body of [for retry in range(1, retries + 1)] over the remaining
    values of [retry]; falling out of the loop returns [None]. *)
Fixpoint retry_loop (fuel : nat) (target_function : operation)
    (args : list value) (rs : list Z) : M value :=
  match rs with
  | [] => ret VNone
  | retry :: rest =>
      let* _ := consume fuel in
      fun w =>
        match call_target target_function args retry w with
        | Returned v w' => Returned v w'
        | Raised e w' =>
            (let* _ := handler retry e in
             retry_loop fuel target_function args rest) w'
        | Unfinished => Unfinished
        end
  end.

(** [retry_function] (lines 74-109). *)
Definition retry_on_comicvine_error (fuel : nat)
    (target_function : operation) : method :=
  fun args =>
    retry_loop fuel target_function args (py_range 1 (retries PREFS + 1)).

(** ** cache_comicvine *)

(** [cache_comicvine(cache_name)(target_function)] (lines 116-141).
    [TMPDIR] is what [os.getenv('TMPDIR')] returns; [FSCache path] stands for
    the memoising decorator [pyfscache.FSCache(path, hours=1)] of the
    external library. *)
Definition cache_comicvine
    (FSCache : string -> method -> method)
    (TMPDIR : option string) (cache_name : string)
    (target_function : method) : method :=
  match TMPDIR with
  | Some temp_directory =>
      let path :=
        (temp_directory +:+ "/calibre-comicvine/" +:+ cache_name)%string in
      let cache_it := FSCache path in
      fun args =>
        match args with
        | [] => raise (OtherException "IndexError" "tuple index out of range")
        | self :: rest =>
            cache_it (fun args' => target_function (self :: args')) rest
        end
  | None => target_function
  end.

End Client.

Arguments world : clear implicits.
Arguments result : clear implicits.
Arguments Returned {E A} a w.
Arguments Raised {E A} e w.
Arguments Unfinished {E A}.
Arguments M : clear implicits.
Arguments operation : clear implicits.
Arguments method : clear implicits.

(** ** PyComicvineWrapper.lookup_issue_image_urls *)

(** What [pycomicvine.Issue(issue_id, field_list=['image'])] exposes: the
    [image] attribute, a dictionary from size keys to URLs, or [None]. *)
Record issue : Type := {
  image : option (gmap string string)
}.

(** Truth value of [issue.image]: neither [None] nor an empty dictionary. *)
Definition image_truthy (img : option (gmap string string)) : bool :=
  match img with
  | Some d => negb (bool_decide (d = ∅))
  | None => false
  end.

Definition url_keys : list string := ["super_url"; "medium_url"; "small_url"].

(** The [for url_key in [...]] loop with its [break] (lines 192-196). *)
Fixpoint collect_urls (d : gmap string string) (get_best_cover : bool)
    (keys : list string) (urls : list string) : list string :=
  match keys with
  | [] => urls
  | url_key :: keys' =>
      match d !! url_key with
      | Some url =>
          let urls' := urls ++ [url] in
          if get_best_cover then urls'
          else collect_urls d get_best_cover keys' urls'
      | None => collect_urls d get_best_cover keys' urls
      end
  end.

(** The body of [lookup_issue_image_urls] (lines 185-205). [fetch] is the
    catalog: a falsy issue object is [None]. *)
Definition lookup_issue_image_urls (fetch : Z -> option issue)
    (issue_id : Z) (get_best_cover : bool) : list string :=
  match fetch issue_id with
  | Some iss =>
      if image_truthy (image iss) then
        match image iss with
        | Some d => collect_urls d get_best_cover url_keys []
        | None => []
        end
      else []
  | None => []
  end.

(** ** Ranking: the two scoring functions of [test_ranking.py] *)

Module Ranking.

Definition lower_char (c : ascii) : ascii :=
  let n := N_of_ascii c in
  if ((65 <=? n) && (n <=? 90))%N then ascii_of_N (n + 32) else c.

(** [str.lower()] *)
Fixpoint lower (s : string) : string :=
  match s with
  | EmptyString => EmptyString
  | String c s' => String (lower_char c) (lower s')
  end.

(** Whitespace of [str.strip()]: space, tab, newline, vertical tab, form
    feed, carriage return. *)
Definition is_space (c : ascii) : bool :=
  let n := N_of_ascii c in
  ((n =? 32) || ((9 <=? n) && (n <=? 13)))%N.

Fixpoint lstrip (s : string) : string :=
  match s with
  | EmptyString => EmptyString
  | String c s' => if is_space c then lstrip s' else s
  end.

Fixpoint rstrip (s : string) : string :=
  match s with
  | EmptyString => EmptyString
  | String c s' =>
      match rstrip s' with
      | EmptyString => if is_space c then EmptyString else String c EmptyString
      | r => String c r
      end
  end.

(** [str.strip()] *)
Definition strip (s : string) : string := rstrip (lstrip s).

(** [needle in haystack] on strings. *)
Fixpoint contains (haystack needle : string) : bool :=
  if String.prefix needle haystack then true
  else
    match haystack with
    | EmptyString => false
    | String _ rest => contains rest needle
    end.

(** Modelled from the spec: [ranking.score_title_tokens], whose module is
    not among the sources. Section 4.5: for each token, if the lowercased
    token is not a substring of the lowercased, whitespace-trimmed title,
    add 10. *)
Definition score_title_tokens (title : string) (tokens : list string) : Z :=
  let t := strip (lower title) in
  fold_left
    (fun score token =>
       if contains t (lower token) then score else score + 10)
    tokens 0.

Definition is_digit (c : ascii) : bool :=
  let n := N_of_ascii c in ((48 <=? n) && (n <=? 57))%N.

Definition digit_value (c : ascii) : Z := Z.of_N (N_of_ascii c) - 48.

(** A parenthesised run of exactly four digits at the head of [s]. *)
Definition year_here (s : string) : option Z :=
  match s with
  | String "(" (String a (String b (String c (String d (String ")" _))))) =>
      if is_digit a && is_digit b && is_digit c && is_digit d
      then Some (1000 * digit_value a + 100 * digit_value b
                 + 10 * digit_value c + digit_value d)
      else None
  | _ => None
  end.

(** The first parenthesised four-digit year of the title, if any. *)
Fixpoint title_year (s : string) : option Z :=
  match year_here s with
  | Some y => Some y
  | None =>
      match s with
      | EmptyString => None
      | String _ rest => title_year rest
      end
  end.

(** [datetime]-like object of the metadata: only [year] is read. *)
Record date : Type := { year : Z }.

(** Modelled from the spec: [ranking.score_publish_date], whose module is
    not among the sources. Section 4.5: known date absent gives 10; known
    date present and no year in the title gives 0; both present give the
    absolute distance of the years. *)
Definition score_publish_date (title : string) (known_date : option date)
  : Z :=
  match known_date with
  | None => 10
  | Some d =>
      match title_year title with
      | None => 0
      | Some y => Z.abs (y - year d)
      end
  end.

End Ranking.

(** ** Vocabulary of the statements *)

Section Vocabulary.

Context {E : Type}.
Variable PREFS : prefs.

(** The persisted count lies between 0 and the batch size. *)
Definition in_range (w : world E) : Prop :=
  0 <= p_tokens (params w) <= request_batch_size PREFS.

Definition is_took (ev : event) : bool :=
  match ev with Took => true | _ => false end.

Definition is_called (ev : event) : bool :=
  match ev with Called _ => true | _ => false end.

Definition is_wait (ev : event) : bool :=
  match ev with Waited _ => true | _ => false end.

(** Number of tokens taken so far, and number of invocations of the wrapped
    operation so far. *)
Definition taken (w : world E) : Z :=
  Z.of_nat (length (List.filter is_took (trace w))).

Definition attempts (w : world E) : Z :=
  Z.of_nat (length (List.filter is_called (trace w))).

Definition consume_calls (cs : list call) : Z :=
  Z.of_nat
    (length
       (List.filter
          (fun c => match c with Consume => true | _ => false end) cs)).

(** [w'] is [w] after some reads of [tokens] and sleeps of length [d]:
    the count did not go down, stayed in range if it was, and nothing but
    the bucket, the clock and the list of waits changed. *)
Definition waited_only (d : Q) (w w' : world E) : Prop :=
  p_tokens (params w) <= p_tokens (params w')
  /\ (in_range w -> in_range w')
  /\ (exists k : nat, trace w' = trace w ++ repeat (Waited d) k)
  /\ entropy w' = entropy w
  /\ draws w' = draws w
  /\ remote w' = remote w.

(** The bucket can serve requests: a positive interval, room for at least
    one token, a count in range. *)
Definition serviceable (w : world E) : Prop :=
  (0 < request_interval PREFS)%Q
  /\ 1 <= request_batch_size PREFS
  /\ in_range w.

(** [random.random()] returns values of the half-open unit interval. *)
Definition unit_entropy (w : world E) : Prop :=
  forall n : nat, (0 <= entropy w n)%Q /\ (entropy w n < 1)%Q.

(** The errors that [retry_function] hands to [handle_rate_limit]. *)
Definition rate_limit_class (e : exn) : bool :=
  match e with
  | RateLimitExceededError _ => true
  | HTTPError code _ => code =? 420
  | OtherException _ _ => false
  end.

(** Every invocation of the operation raises, and never a rate-limit
    error. *)
Definition always_transient (target_function : operation E)
    (args : list value) : Prop :=
  forall r : E,
    match fst (target_function args r) with
    | Raise e => rate_limit_class e = false
    | Return _ => False
    end.

(** State of the remote service after [n] invocations. *)
Fixpoint remote_after (target_function : operation E) (args : list value)
    (n : nat) (r : E) : E :=
  match n with
  | O => r
  | S n' => remote_after target_function args n' (snd (target_function args r))
  end.

(** The trace without the waits inside [consume]. *)
Definition steps (l : list event) : list event :=
  List.filter (fun ev => negb (is_wait ev)) l.

(** What [remaining] failed attempts numbered from [retry] look like: a
    token is taken before each invocation, and a jittered sleep separates
    two consecutive attempts. *)
Fixpoint attempt_steps (rnd : nat -> Q) (draw : nat) (retry : Z)
    (remaining : nat) : list event :=
  match remaining with
  | O => []
  | S m =>
      Took :: Called retry ::
        match m with
        | O => []
        | S _ =>
            Jittered (rnd draw / 2 + (1 # 10))%Q
              :: attempt_steps rnd (S draw) (retry + 1) m
        end
  end.

(** A sleep between attempts lasts at least 0.1 and less than 0.6
    seconds. *)
Definition short_jitter (ev : event) : Prop :=
  match ev with
  | Jittered d => ((1 # 10) <= d)%Q /\ (d < (6 # 10))%Q
  | _ => True
  end.

End Vocabulary.

(** The URL stored under one size key, if any. *)
Definition url_of (d : gmap string string) (url_key : string) : list string :=
  match d !! url_key with
  | Some url => [url]
  | None => []
  end.

(** The URLs an image dictionary offers, best quality first. *)
Definition available_urls (d : gmap string string) : list string :=
  url_of d "super_url" ++ url_of d "medium_url" ++ url_of d "small_url".

(** The URLs the catalog offers for an issue: none when the issue object
    is falsy or has no image. *)
Definition issue_urls (fetch : Z -> option issue) (issue_id : Z)
  : list string :=
  match fetch issue_id with
  | Some iss =>
      match image iss with
      | Some d => available_urls d
      | None => []
      end
  | None => []
  end.

(** ** Sample inputs *)

(** One token per ten seconds, a bucket of one, three attempts. *)
Definition sample_prefs : prefs :=
  {| request_interval := 10; request_batch_size := 1; retries := 3 |}.

(** An empty bucket last updated three seconds ago. *)
Definition sample_world : world unit :=
  {| params := {| p_tokens := 0; p_update := 0 |};
     clock := 3;
     trace := [];
     entropy := fun _ => (1 # 4)%Q;
     draws := O;
     remote := tt |}.

(** The same settings with retrying switched off. *)
Definition no_retry_prefs : prefs :=
  {| request_interval := 10; request_batch_size := 1; retries := 0 |}.

(** Operations that fail on every invocation: quota exceeded, HTTP 420,
    HTTP 429, a timeout. The remote state counts the invocations. *)
Definition quota_exceeded : operation nat :=
  fun _ n => (Raise (RateLimitExceededError "quota"), S n).

Definition always_http (code : Z) : operation nat :=
  fun _ n => (Raise (HTTPError code "error"), S n).

Definition always_timeout : operation nat :=
  fun _ n => (Raise (OtherException "timeout" "timed out"), S n).

Definition sample_world_nat : world nat :=
  {| params := {| p_tokens := 0; p_update := 0 |};
     clock := 3;
     trace := [];
     entropy := fun _ => (1 # 4)%Q;
     draws := O;
     remote := O |}.

(** The same bucket once [consume()] has waited seven seconds and taken
    the token minted at second ten. *)
Definition sample_world_served : world unit :=
  {| params := {| p_tokens := 0; p_update := 10 |};
     clock := 10;
     trace := [Waited 7; Took];
     entropy := fun _ => (1 # 4)%Q;
     draws := O;
     remote := tt |}.

(** The same bucket at the moment the waiting loop is left: seven seconds
    slept, the token of second ten minted and not yet taken. *)
Definition sample_world_minted : world unit :=
  {| params := {| p_tokens := 1; p_update := 10 |};
     clock := 10;
     trace := [Waited 7];
     entropy := fun _ => (1 # 4)%Q;
     draws := O;
     remote := tt |}.

(** A catalog whose issue 7 has a large and a small cover, whose issue 8
    has no image, and which knows no other issue. *)
Definition sample_catalog (issue_id : Z) : option issue :=
  if issue_id =? 7 then
    Some {| image :=
              Some (<["small_url" := "http://cv/s.jpg"]>
                      (<["super_url" := "http://cv/xl.jpg"]> ∅)) |}
  else if issue_id =? 8 then Some {| image := None |}
  else None.

(** ** The remaining methods of PyComicvineWrapper *)

Section Wrapper.

Context {E : Type}.

(** [sep.join(parts)] *)
Fixpoint py_join (sep : string) (parts : list string) : string :=
  match parts with
  | [] => EmptyString
  | part :: rest =>
      match rest with
      | [] => part
      | _ :: _ => (part +:+ sep +:+ py_join sep rest)%string
      end
  end.

(** [lookup_volume_id] (lines 150-159) at a given [volume_id], as the
    operation the decorators wrap. [Volume] stands for the constructor
    [pycomicvine.Volume(id=..., field_list=['id'])]: it answers with the [id]
    attribute of a truthy object, with [None] for a falsy one, or raises. *)
Definition lookup_volume_id
    (Volume : Z -> E -> outcome (option Z) * E) (volume_id : Z)
  : operation E :=
  fun _ r =>
    match Volume volume_id r with
    | (Return (Some id), r') => (Return (VInt id), r')
    | (Return None, r') => (Return VNone, r')
    | (Raise e, r') => (Raise e, r')
    end.

(** [lookup_issue_image_urls] (lines 185-205) at given arguments, as the
    operation the decorators wrap. [Issue] stands for
    [pycomicvine.Issue(issue_id, field_list=['image'])]. *)
Definition lookup_issue_image_urls_op
    (Issue : Z -> E -> outcome (option issue) * E)
    (issue_id : Z) (get_best_cover : bool) : operation E :=
  fun _ r =>
    match Issue issue_id r with
    | (Return found, r') =>
        (Return
           (VList
              (map VStr
                 (lookup_issue_image_urls (fun _ => found) issue_id
                    get_best_cover))),
         r')
    | (Raise e, r') => (Raise e, r')
    end.

(** [search_for_authors] (lines 208-218). [People] stands for
    [pycomicvine.People(filter=..., field_list=['id'])] together with the
    [len(authors)] of the debug message. *)
Definition search_for_authors
    (People : string -> E -> outcome value * E)
    (author_tokens : list string) : operation E :=
  fun _ r =>
    if negb (bool_decide (author_tokens = []))
       && negb (bool_decide (author_tokens = ["Unknown"]))
    then
      let filters :=
        map (fun author_token => ("name:" +:+ author_token)%string)
          author_tokens in
      let filter_string := py_join "," filters in
      People filter_string r
    else (Return (VList []), r).

(** [search_for_issue_ids] (lines 222-227). [Issues] stands for
    [pycomicvine.Issues(filter=..., field_list=['id'])] and yields the ids of
    the records found. *)
Definition search_for_issue_ids
    (Issues : string -> E -> outcome (list Z) * E)
    (filters : list string) : operation E :=
  fun _ r =>
    let filter_string := py_join "," filters in
    match Issues filter_string r with
    | (Return ids, r') => (Return (VList (map VInt ids)), r')
    | (Raise e, r') => (Raise e, r')
    end.

(** [search_for_volume_ids] (lines 231-236). [Volumes_search] stands for
    [pycomicvine.Volumes.search(query=..., field_list=['id'])]. *)
Definition search_for_volume_ids
    (Volumes_search : string -> E -> outcome (list Z) * E)
    (title_tokens : list string) : operation E :=
  fun _ r =>
    let query_string := py_join " AND " title_tokens in
    match Volumes_search query_string r with
    | (Return candidate_volume_ids, r') =>
        (Return (VList (map VInt candidate_volume_ids)), r')
    | (Raise e, r') => (Raise e, r')
    end.

(** ** Further vocabulary *)

(** The world after one round of [consume]'s loop body. *)
Definition after_wait (d : Q) (w : world E) : world E :=
  {| params := params w; clock := (clock w + d)%Q;
     trace := trace w ++ [Waited d];
     entropy := entropy w; draws := draws w; remote := remote w |}.

(** The world after [self.params['tokens'] -= 1]. *)
Definition after_take (w : world E) : world E :=
  {| params := {| p_tokens := p_tokens (params w) - 1;
                  p_update := p_update (params w) |};
     clock := clock w; trace := trace w ++ [Took];
     entropy := entropy w; draws := draws w; remote := remote w |}.

(** The world after an invocation of the wrapped operation. *)
Definition after_call (retry : Z) (r : E) (w : world E) : world E :=
  {| params := params w; clock := clock w;
     trace := trace w ++ [Called retry];
     entropy := entropy w; draws := draws w; remote := r |}.

(** The world after the sleep between two attempts. *)
Definition after_jitter (w : world E) : world E :=
  {| params := params w;
     clock := (clock w + (entropy w (draws w) / 2 + (1 # 10)))%Q;
     trace := trace w ++ [Jittered (entropy w (draws w) / 2 + (1 # 10))%Q];
     entropy := entropy w; draws := S (draws w); remote := remote w |}.

(** The first [k] invocations from remote state [r] all fail with an error
    outside the rate-limit class. *)
Definition transient_for (target_function : operation E)
    (args : list value) (k : nat) (r : E) : Prop :=
  forall i : nat,
    (i < k)%nat ->
    match fst (target_function args
                 (remote_after target_function args i r)) with
    | Raise e => rate_limit_class e = false
    | Return _ => False
    end.

(** An outcome that ends the retry loop: a value, or an error of the
    rate-limit class. *)
Definition decisive (o : outcome value) : Prop :=
  match o with
  | Return _ => True
  | Raise e => rate_limit_class e = true
  end.

(** How a call ends that is decided by the outcome [o]. *)
Definition finish (o : outcome value) (w : world E) : result E value :=
  match o with
  | Return v => Returned v w
  | Raise e => Raised e w
  end.

End Wrapper.

(** ** A call of the wrapper, attempt by attempt *)

Section Attempts.

Context {E : Type}.
Variable PREFS : prefs.

(** The time slept according to a trace: the waits inside [consume] and the
    sleeps between attempts. *)
Fixpoint slept (l : list event) : Q :=
  match l with
  | [] => 0
  | Waited d :: l' => (d + slept l')%Q
  | Jittered d :: l' => (d + slept l')%Q
  | _ :: l' => slept l'
  end.

(** The world after [n] attempts numbered from [retry], as section 4.2 of
    the specification describes them: the waiting loop of [consume] runs
    until a token is there, the persisted count goes down by one, the
    operation is invoked; after every attempt but the last the clock moves
    on by [random.random() / 2 + 0.1]. [None] when a waiting loop does not
    come to an end. *)
Fixpoint after_attempts (fuel : nat) (target_function : operation E)
    (args : list value) (retry : Z) (n : nat) (w : world E)
  : option (world E) :=
  match n with
  | O => Some w
  | S m =>
      match consume_wait PREFS fuel (request_interval PREFS)
              (clock w - p_update (params w))%Q w with
      | Returned _ w1 =>
          let w2 :=
            after_call retry (snd (target_function args (remote w1)))
              (after_take w1) in
          match m with
          | O => Some w2
          | S _ =>
              after_attempts fuel target_function args (retry + 1) m
                (after_jitter w2)
          end
      | Raised _ _ => None
      | Unfinished => None
      end
  end.

End Attempts.

(** An operation that fails twice with a timeout and then answers 42. *)
Definition third_time_lucky : operation nat :=
  fun _ n =>
    if (n <? 2)%nat then (Raise (OtherException "timeout" "timed out"), S n)
    else (Return (VInt 42), S n).

(** An operation that fails once with a timeout and is then refused for
    quota. *)
Definition then_quota : operation nat :=
  fun _ n =>
    if (n <? 1)%nat then (Raise (OtherException "timeout" "timed out"), S n)
    else (Raise (RateLimitExceededError "quota"), S n).

(** A person search that counts its requests and finds nobody. *)
Definition sample_people : string -> nat -> outcome value * nat :=
  fun _ n => (Return (VList []), S n).

(** An issue constructor over [sample_catalog] that counts its requests. *)
Definition sample_issue : Z -> nat -> outcome (option issue) * nat :=
  fun issue_id n => (Return (sample_catalog issue_id), S n).

(** A bucket with one banked token. *)
Definition sample_world_banked : world nat :=
  {| params := {| p_tokens := 1; p_update := 0 |};
     clock := 3;
     trace := [];
     entropy := fun _ => (1 # 4)%Q;
     draws := O;
     remote := O |}.

(** An empty bucket left alone for twenty-five seconds. *)
Definition sample_world_idle : world nat :=
  {| params := {| p_tokens := 0; p_update := 0 |};
     clock := 25;
     trace := [];
     entropy := fun _ => (1 # 4)%Q;
     draws := O;
     remote := O |}.

(** A volume constructor that knows volume 7 only and counts its
    requests. *)
Definition sample_volume : Z -> nat -> outcome (option Z) * nat :=
  fun volume_id n =>
    (Return (if volume_id =? 7 then Some 7 else None), S n).

(** Settings whose bucket has no room, and settings with a zero
    interval. *)
Definition no_room_prefs : prefs :=
  {| request_interval := 10; request_batch_size := 0; retries := 3 |}.

Definition zero_interval_prefs : prefs :=
  {| request_interval := 0; request_batch_size := 1; retries := 3 |}.

(** * Properties *)

(** ** Arithmetic of the runtime primitives *)

Lemma Qltb_lt (x y : Q) : Qltb x y = true <-> (x < y)%Q.
Proof. unfold Qltb, Qlt. apply Z.ltb_lt. Qed.

Lemma Qltb_ge (x y : Q) : Qltb x y = false <-> (y <= x)%Q.
Proof. unfold Qltb, Qle. rewrite Z.ltb_ge. reflexivity. Qed.

Lemma py_int_nonneg (x : Q) : (0 <= x)%Q -> 0 <= py_int x.
Proof.
  unfold Qle, py_int. simpl. intros H.
  apply Z.quot_pos; lia.
Qed.

Lemma py_int_ge_1 (x : Q) : (1 <= x)%Q -> 1 <= py_int x.
Proof.
  unfold Qle, py_int. simpl. intros H.
  apply Z.quot_le_lower_bound; lia.
Qed.

Lemma whole_tokens_nonneg (elapsed interval : Q) :
  (0 < elapsed)%Q -> (0 <= interval)%Q ->
  0 <= py_int (elapsed * (1 / interval))%Q.
Proof.
  intros He Hi. apply py_int_nonneg.
  apply Qmult_le_0_compat; [apply Qlt_le_weak, He|].
  unfold Qdiv. rewrite Qmult_1_l. apply Qinv_le_0_compat, Hi.
Qed.

Lemma whole_tokens_ge_1 (elapsed interval : Q) :
  (0 < interval)%Q -> (interval <= elapsed)%Q ->
  1 <= py_int (elapsed * (1 / interval))%Q.
Proof.
  intros Hi He. apply py_int_ge_1.
  unfold Qdiv. rewrite Qmult_1_l.
  apply Qle_shift_div_l; [exact Hi|]. rewrite Qmult_1_l. exact He.
Qed.

(** ** The token bucket *)

Section BucketFacts.

Context {E : Type}.
Variable PREFS : prefs.

(** One read of [tokens]: it returns the persisted count it leaves behind,
    never lowers it, keeps it in range, and touches nothing else. *)
Lemma tokens_spec (w : world E) :
  (0 <= request_interval PREFS)%Q ->
  match tokens PREFS w with
  | Returned t w' =>
      t = p_tokens (params w')
      /\ p_tokens (params w) <= t
      /\ (in_range PREFS w -> in_range PREFS w')
      /\ trace w' = trace w /\ clock w' = clock w
      /\ entropy w' = entropy w /\ draws w' = draws w
      /\ remote w' = remote w
  | Raised _ w' => w' = w
  | Unfinished => False
  end.
Proof.
  intros Hi. unfold tokens, in_range.
  destruct (p_tokens (params w) <? request_batch_size PREFS) eqn:Hlt;
    [|repeat split; try reflexivity; lia].
  apply Z.ltb_lt in Hlt.
  destruct (Qltb 0 (clock w - p_update (params w))) eqn:He;
    [|repeat split; try reflexivity; lia].
  apply Qltb_lt in He.
  destruct (Qeq_bool (request_interval PREFS) 0) eqn:Hz; [reflexivity|].
  pose proof (whole_tokens_nonneg _ _ He Hi) as Hn.
  destruct (py_int _ =? 0) eqn:Hn0;
    [repeat split; try reflexivity; lia|].
  apply Z.eqb_neq in Hn0.
  destruct (_ + _ <? _) eqn:Hcap; simpl;
    [apply Z.ltb_lt in Hcap | apply Z.ltb_ge in Hcap];
    repeat split; try reflexivity; lia.
Qed.

(** With a positive interval the read never raises. *)
Lemma tokens_returns (w : world E) :
  (0 < request_interval PREFS)%Q ->
  exists t w', tokens PREFS w = Returned t w'.
Proof.
  intros Hi. unfold tokens.
  assert (Hz : Qeq_bool (request_interval PREFS) 0 = false).
  { destruct (Qeq_bool (request_interval PREFS) 0) eqn:Hz; [|reflexivity].
    apply Qeq_bool_iff in Hz. rewrite Hz in Hi.
    exfalso. exact (Qlt_irrefl 0 Hi). }
  rewrite Hz.
  repeat match goal with
         | |- context [if ?b then _ else _] => destruct b
         end; eauto.
Qed.

Lemma waited_only_refl (d : Q) (w : world E) : waited_only PREFS d w w.
Proof.
  unfold waited_only.
  split; [lia|]. split; [tauto|].
  split; [exists O; simpl; now rewrite app_nil_r|].
  repeat split.
Qed.

Lemma waited_only_trans (d : Q) (w1 w2 w3 : world E) :
  waited_only PREFS d w1 w2 -> waited_only PREFS d w2 w3 ->
  waited_only PREFS d w1 w3.
Proof.
  intros (Ha & Hb & (k1 & Hc) & Hd & He & Hf)
         (Ha' & Hb' & (k2 & Hc') & Hd' & He' & Hf').
  unfold waited_only.
  split; [lia|]. split; [tauto|].
  split; [|repeat split; congruence].
  exists (k1 + k2)%nat. rewrite Hc', Hc, <- app_assoc, repeat_app. reflexivity.
Qed.

(** The waiting loop of [consume]: when it is left normally at least one
    token is there; however it is left, the world is the old one after some
    reads and some sleeps of the one delay computed at entry. *)
Lemma consume_wait_spec (fuel : nat) (interval tslr : Q) (w : world E) :
  (0 <= request_interval PREFS)%Q ->
  match consume_wait PREFS fuel interval tslr w with
  | Returned _ w' =>
      1 <= p_tokens (params w')
      /\ waited_only PREFS (consume_delay interval tslr) w w'
  | Raised _ w' => waited_only PREFS (consume_delay interval tslr) w w'
  | Unfinished => True
  end.
Proof.
  intros Hi. revert w. induction fuel as [|fuel IH]; intros w; [exact I|].
  simpl. unfold bind.
  pose proof (tokens_spec w Hi) as Ht.
  destruct (tokens PREFS w) as [t w1|e w1|]; [|subst; apply waited_only_refl|tauto].
  destruct Ht as (Ht & Hle & Hr & Htr & Hck & Hen & Hdr & Hrem).
  assert (Hw1 : waited_only PREFS (consume_delay interval tslr) w w1).
  { unfold waited_only.
    split; [lia|]. split; [exact Hr|].
    split; [exists O; simpl; now rewrite app_nil_r|].
    repeat split; assumption. }
  destruct (t <? 1) eqn:Hlt.
  - unfold sleep. destruct (Qltb (consume_delay interval tslr) 0); [exact Hw1|].
    unfold emit.
    set (w2 := {| params := _ |}).
    assert (Hw2 : waited_only PREFS (consume_delay interval tslr) w1 w2).
    { unfold waited_only, in_range. subst w2. simpl.
      split; [lia|]. split; [tauto|].
      split; [exists 1%nat; reflexivity|].
      repeat split. }
    specialize (IH w2).
    destruct (consume_wait PREFS fuel interval tslr w2) as [[] w3|e w3|];
      [destruct IH as [IH1 IH2]; split; [exact IH1|]| |exact I];
      eauto using waited_only_trans.
  - apply Z.ltb_ge in Hlt. unfold ret. split; [lia|exact Hw1].
Qed.

Lemma take_one_spec (w : world E) :
  exists w',
    take_one w = Returned tt w'
    /\ p_tokens (params w') = p_tokens (params w) - 1
    /\ p_update (params w') = p_update (params w)
    /\ trace w' = trace w ++ [Took]
    /\ clock w' = clock w /\ entropy w' = entropy w
    /\ draws w' = draws w /\ remote w' = remote w.
Proof. eexists. unfold take_one, emit. simpl. repeat split. Qed.

(** [consume]: a normal return is the waiting loop followed by the
    decrement of a count that is at least one. *)
Lemma consume_spec (fuel : nat) (w : world E) :
  (0 <= request_interval PREFS)%Q ->
  let d := consume_delay (request_interval PREFS)
             (clock w - p_update (params w))%Q in
  match consume PREFS fuel w with
  | Returned _ w' =>
      exists w1,
        waited_only PREFS d w w1
        /\ 1 <= p_tokens (params w1)
        /\ take_one w1 = Returned tt w'
  | Raised _ w' => waited_only PREFS d w w'
  | Unfinished => True
  end.
Proof.
  intros Hi d. unfold consume, bind.
  pose proof (consume_wait_spec fuel (request_interval PREFS)
                (clock w - p_update (params w))%Q w Hi) as Hw.
  fold d in Hw.
  destruct (consume_wait PREFS fuel _ _ w) as [[] w1|e w1|];
    [|exact Hw|exact I].
  destruct Hw as [H1 Hw].
  destruct (take_one_spec w1) as (w' & Ht & _).
  rewrite Ht. exists w1. auto.
Qed.

(** A read that finds no token on a serviceable bucket changed nothing, and
    the interval since the last update has not yet elapsed. *)
Lemma tokens_empty (w w1 : world E) (t : Z) :
  serviceable PREFS w ->
  tokens PREFS w = Returned t w1 -> t < 1 ->
  w1 = w /\ p_tokens (params w) = 0
  /\ (clock w - p_update (params w) < request_interval PREFS)%Q.
Proof.
  intros (Hi & Hb & Hr) Ht Hlt. unfold in_range in Hr.
  unfold tokens in Ht.
  destruct (p_tokens (params w) <? request_batch_size PREFS) eqn:Hc;
    [|apply Z.ltb_ge in Hc; inversion Ht; subst; lia].
  destruct (Qltb 0 (clock w - p_update (params w))) eqn:He.
  - apply Qltb_lt in He.
    destruct (Qeq_bool (request_interval PREFS) 0); [discriminate|].
    pose proof (whole_tokens_nonneg _ _ He (Qlt_le_weak _ _ Hi)) as Hn.
    destruct (py_int _ =? 0) eqn:Hn0.
    + inversion Ht; subst. split; [reflexivity|]. split; [lia|].
      apply Z.eqb_eq in Hn0.
      destruct (Qlt_le_dec (clock w1 - p_update (params w1))
                  (request_interval PREFS)) as [Hlt'|Hge]; [exact Hlt'|].
      pose proof (whole_tokens_ge_1 _ _ Hi Hge). lia.
    + apply Z.eqb_neq in Hn0.
      destruct (_ + _ <? _) eqn:Hcap; inversion Ht; subst; lia.
  - apply Qltb_ge in He. inversion Ht; subst.
    split; [reflexivity|]. split; [lia|]. lra.
Qed.

(** Once the interval has elapsed, a read of a serviceable bucket finds a
    token. *)
Lemma tokens_after_interval (w : world E) :
  serviceable PREFS w ->
  (request_interval PREFS <= clock w - p_update (params w))%Q ->
  exists t w', tokens PREFS w = Returned t w' /\ 1 <= t.
Proof.
  intros (Hi & Hb & Hr) He. unfold in_range in Hr.
  destruct (tokens_returns w Hi) as (t & w' & Ht).
  exists t, w'. split; [exact Ht|].
  unfold tokens in Ht.
  destruct (p_tokens (params w) <? request_batch_size PREFS) eqn:Hc.
  - apply Z.ltb_lt in Hc.
    assert (Hpos : Qltb 0 (clock w - p_update (params w)) = true)
      by (apply Qltb_lt; lra).
    rewrite Hpos in Ht.
    destruct (Qeq_bool (request_interval PREFS) 0); [discriminate|].
    pose proof (whole_tokens_ge_1 _ _ Hi He) as Hn.
    destruct (py_int _ =? 0) eqn:Hn0; [apply Z.eqb_eq in Hn0; lia|].
    destruct (_ + _ <? _) eqn:Hcap;
      [apply Z.ltb_lt in Hcap | apply Z.ltb_ge in Hcap];
      inversion Ht; subst; simpl; lia.
  - apply Z.ltb_ge in Hc. inversion Ht; subst. lia.
Qed.

(** On a serviceable bucket the waiting loop of [consume] is left after at
    most one sleep: two rounds of fuel are enough. *)
Lemma consume_wait_terminates (fuel : nat) (w : world E) :
  serviceable PREFS w -> (2 <= fuel)%nat ->
  exists w',
    consume_wait PREFS fuel (request_interval PREFS)
      (clock w - p_update (params w))%Q w = Returned tt w'.
Proof.
  intros Hs Hf.
  destruct fuel as [|[|fuel]]; [lia|lia|].
  pose proof Hs as (Hi & Hb & Hr).
  destruct (tokens_returns w Hi) as (t & w1 & Ht).
  cbn [consume_wait]. unfold bind at 1. rewrite Ht.
  destruct (t <? 1) eqn:Hlt; [|eexists; reflexivity].
  apply Z.ltb_lt in Hlt.
  destruct (tokens_empty w w1 t Hs Ht Hlt) as (-> & Hz & Hel).
  unfold consume_delay.
  assert (Hq : Qltb (clock w - p_update (params w)) (request_interval PREFS)
               = true) by (apply Qltb_lt; exact Hel).
  rewrite Hq.
  unfold bind at 1. unfold sleep.
  assert (Hd : Qltb (request_interval PREFS - (clock w - p_update (params w))) 0
               = false) by (apply Qltb_ge; lra).
  rewrite Hd. unfold bind at 1. unfold emit.
  set (w2 := {| params := _ |}).
  assert (Hs2 : serviceable PREFS w2).
  { split; [exact Hi|]. split; [exact Hb|]. exact Hr. }
  destruct (tokens_after_interval w2 Hs2) as (t2 & w3 & Ht2 & Hge).
  { subst w2. simpl. lra. }
  unfold bind. rewrite Ht2.
  assert (Hnlt : (t2 <? 1) = false) by (apply Z.ltb_ge; lia).
  rewrite Hnlt. eexists. reflexivity.
Qed.

Lemma consume_terminates (fuel : nat) (w : world E) :
  serviceable PREFS w -> (2 <= fuel)%nat ->
  exists w', consume PREFS fuel w = Returned tt w'.
Proof.
  intros Hs Hf. unfold consume, bind.
  destruct (consume_wait_terminates fuel w Hs Hf) as (w1 & Hw).
  rewrite Hw.
  destruct (take_one_spec w1) as (w' & Ht & _). eauto.
Qed.

Lemma filter_took_waits (l : list event) (d : Q) (k : nat) :
  List.filter is_took (l ++ repeat (Waited d) k) = List.filter is_took l.
Proof.
  rewrite List.filter_app.
  assert (H : List.filter is_took (repeat (Waited d) k) = [])
    by (induction k; simpl; auto).
  rewrite H. apply app_nil_r.
Qed.

Lemma waited_only_taken (d : Q) (w w' : world E) :
  waited_only PREFS d w w' -> taken w' = taken w.
Proof.
  intros (_ & _ & (k & Hk) & _). unfold taken.
  rewrite Hk, filter_took_waits. reflexivity.
Qed.

(** One call of a client: the count stays in range, and it goes down by at
    most the number of tokens taken, which is at most one and only for
    [consume]. *)
Lemma run_call_spec (fuel : nat) (c : call) (w w' : world E) :
  (0 <= request_interval PREFS)%Q ->
  in_range PREFS w ->
  run_call PREFS fuel c w = Some w' ->
  in_range PREFS w'
  /\ p_tokens (params w) - (taken w' - taken w) <= p_tokens (params w')
  /\ 0 <= taken w' - taken w <= consume_calls [c].
Proof.
  intros Hi Hr Hrun. destruct c as [| |d]; simpl in Hrun.
  - pose proof (consume_spec fuel w Hi) as Hc. simpl in Hc.
    destruct (consume PREFS fuel w) as [[] w2|e w2|]; simpl in Hrun;
      [| |discriminate]; inversion Hrun; subst w2; clear Hrun.
    + destruct Hc as (w1 & Hw & H1 & Ht).
      destruct (take_one_spec w1) as (w2 & Ht' & Hp & _ & Htr & _).
      rewrite Ht in Ht'. inversion Ht'; subst w2; clear Ht'.
      pose proof (waited_only_taken _ _ _ Hw) as Htk.
      destruct Hw as (Hle & Hr1 & _).
      specialize (Hr1 Hr). unfold in_range in *.
      assert (Htk' : taken w' = taken w1 + 1).
      { unfold taken. rewrite Htr, List.filter_app, List.length_app. simpl. lia. }
      unfold consume_calls. simpl. lia.
    + pose proof (waited_only_taken _ _ _ Hc) as Htk.
      destruct Hc as (Hle & Hr1 & _). specialize (Hr1 Hr).
      unfold consume_calls. simpl. split; [exact Hr1|]. lia.
  - pose proof (tokens_spec w Hi) as Ht.
    destruct (tokens PREFS w) as [t w2|e w2|]; simpl in Hrun;
      [| |discriminate]; inversion Hrun; subst w2; clear Hrun.
    + destruct Ht as (Ht & Hle & Hr1 & Htr & _).
      unfold taken, consume_calls. rewrite Htr. simpl.
      split; [exact (Hr1 Hr)|]. lia.
    + subst w'. unfold consume_calls. simpl. split; [exact Hr|]. lia.
  - inversion Hrun; subst w'. unfold in_range, taken, consume_calls in *.
    simpl. lia.
Qed.

(** C1. Starting from a persisted count within [0, request_batch_size],
    after any sequence of [consume()] calls, reads of [tokens] and passages
    of time the persisted count is again within [0, request_batch_size]; it
    is lower than before by at most the number of tokens taken in between,
    and at most one token is taken per call of [consume()]. The interval is
    assumed non-negative (seconds per token). *)
Theorem C1_tokens_stay_in_range (fuel : nat) (cs : list call)
    (w w' : world E) :
  (0 <= request_interval PREFS)%Q ->
  in_range PREFS w ->
  run_calls PREFS fuel cs w = Some w' ->
  in_range PREFS w'
  /\ p_tokens (params w) - (taken w' - taken w) <= p_tokens (params w')
  /\ 0 <= taken w' - taken w <= consume_calls cs.
Proof.
  intros Hi. revert w. induction cs as [|c cs IH]; intros w Hr Hrun.
  - inversion Hrun; subst. unfold consume_calls. simpl.
    split; [exact Hr|]. lia.
  - simpl in Hrun.
    destruct (run_call PREFS fuel c w) as [w1|] eqn:Hc; [|discriminate].
    destruct (run_call_spec fuel c w w1 Hi Hr Hc) as (Hr1 & Hd1 & Ht1).
    destruct (IH w1 Hr1 Hrun) as (Hr2 & Hd2 & Ht2).
    split; [exact Hr2|].
    assert (Hcc : consume_calls (c :: cs)
                  = consume_calls [c] + consume_calls cs).
    { unfold consume_calls. simpl. destruct c; simpl; lia. }
    lia.
Qed.

(** Whatever the configuration, a read returns the count it persists and
    leaves the trace alone. *)
Lemma tokens_value (w w' : world E) (t : Z) :
  tokens PREFS w = Returned t w' ->
  t = p_tokens (params w') /\ trace w' = trace w.
Proof.
  unfold tokens. intros H.
  repeat match type of H with
         | context [if ?b then _ else _] => destruct b
         end; inversion H; subst; simpl; auto.
Qed.

End BucketFacts.

(** C4, the sentence as written: with an interval of ten seconds and a last
    update three seconds ago, [consume()] sleeps seven seconds, whereas
    [max(interval - time_since_last_request, interval)] is ten. *)
Lemma C4_delay_is_not_the_maximum :
  option_map trace (world_after (consume sample_prefs 2 sample_world))
  = Some [Waited 7; Took]
  /\ ~ (7 == Qmax (request_interval sample_prefs
                   - (clock sample_world - p_update (params sample_world)))
              (request_interval sample_prefs))%Q.
Proof.
  split; [vm_compute; reflexivity|].
  vm_compute. discriminate.
Qed.

Lemma C1_witness :
  exists w' : world unit,
    run_calls sample_prefs 2 [Consume; ReadTokens; TimePasses 25; Consume]
      sample_world = Some w'
    /\ in_range sample_prefs w'
    /\ p_tokens (params sample_world) - (taken w' - taken sample_world)
       <= p_tokens (params w')
    /\ 0 <= taken w' - taken sample_world <= 2.
Proof.
  eexists. split; [vm_compute; reflexivity|].
  apply (C1_tokens_stay_in_range sample_prefs 2
           [Consume; ReadTokens; TimePasses 25; Consume] sample_world).
  - vm_compute. discriminate.
  - unfold in_range. simpl. lia.
  - vm_compute. reflexivity.
Defined.

(** ** The retry decorator *)

Section RetryFacts.

Context {E : Type}.
Variable PREFS : prefs.

Lemma py_range_nil (a b : Z) : b <= a -> py_range a b = [].
Proof.
  intros H. unfold py_range.
  replace (Z.to_nat (b - a)) with O by lia. reflexivity.
Qed.

Lemma py_range_cons (a b : Z) :
  a < b -> py_range a b = a :: py_range (a + 1) b.
Proof.
  intros H. unfold py_range.
  replace (Z.to_nat (b - a)) with (S (Z.to_nat (b - (a + 1)))) by lia.
  cbn [seq map]. f_equal; [lia|].
  rewrite <- seq_shift, map_map.
  apply map_ext. intros i. lia.
Qed.

(** [consume] on a serviceable bucket: it returns, the bucket stays
    serviceable, and the trace grows by some waits and one [Took]. *)
Lemma consume_serviceable (fuel : nat) (w : world E) :
  serviceable PREFS w -> (2 <= fuel)%nat ->
  exists (w1 : world E) (d : Q) (k : nat),
    consume PREFS fuel w = Returned tt w1
    /\ serviceable PREFS w1
    /\ trace w1 = trace w ++ repeat (Waited d) k ++ [Took]
    /\ entropy w1 = entropy w /\ draws w1 = draws w
    /\ remote w1 = remote w.
Proof.
  intros Hs Hf. pose proof Hs as (Hi & Hb & Hr).
  destruct (consume_terminates PREFS fuel w Hs Hf) as (w1 & Hc).
  pose proof (consume_spec PREFS fuel w (Qlt_le_weak _ _ Hi)) as Hsp.
  simpl in Hsp. rewrite Hc in Hsp.
  destruct Hsp as (w0 & Hw & H1 & Ht).
  destruct (take_one_spec w0) as (w2 & Ht' & Hp & _ & Htr & _ & Hen & Hdr & Hrem).
  rewrite Ht in Ht'. inversion Ht'; subst w2; clear Ht'.
  destruct Hw as (Hle & Hr0 & (k & Hk) & Hen0 & Hdr0 & Hrem0).
  specialize (Hr0 Hr). unfold in_range in Hr0.
  exists w1, (consume_delay (request_interval PREFS)
                (clock w - p_update (params w))%Q), k.
  split; [exact Hc|].
  split; [split; [exact Hi|]; split; [exact Hb|]; unfold in_range; lia|].
  split; [rewrite Htr, Hk, <- app_assoc; reflexivity|].
  repeat split; congruence.
Qed.

Lemma steps_app (l1 l2 : list event) : steps (l1 ++ l2) = steps l1 ++ steps l2.
Proof. apply List.filter_app. Qed.

Lemma steps_waits (d : Q) (k : nat) : steps (repeat (Waited d) k) = [].
Proof. induction k; simpl; auto. Qed.

Lemma call_target_eq (target_function : operation E) (args : list value)
    (retry : Z) (w : world E) :
  call_target target_function args retry w =
  let w' :=
    {| params := params w; clock := clock w;
       trace := trace w ++ [Called retry];
       entropy := entropy w; draws := draws w;
       remote := snd (target_function args (remote w)) |} in
  match fst (target_function args (remote w)) with
  | Return v => Returned v w'
  | Raise e => Raised e w'
  end.
Proof.
  unfold call_target. destruct (target_function args (remote w)) as [o r].
  reflexivity.
Qed.

Lemma handler_rate_limit (retry : Z) (e : exn) :
  rate_limit_class e = true -> handler (E:=E) PREFS retry e = raise e.
Proof.
  destruct e as [m|code m|n m]; simpl; intros H;
    [reflexivity|rewrite H; reflexivity|discriminate].
Qed.

Lemma handler_transient (retry : Z) (e : exn) :
  rate_limit_class e = false ->
  handler (E:=E) PREFS retry e = handle_exception PREFS retry e.
Proof.
  destruct e as [m|code m|n m]; simpl; intros H;
    [discriminate|rewrite H; reflexivity|reflexivity].
Qed.

Lemma handle_exception_last (retry : Z) (e : exn) (w : world E) :
  retries PREFS <= retry -> handle_exception PREFS retry e w = Raised e w.
Proof.
  intros H. unfold handle_exception.
  rewrite Z.geb_leb. apply Z.leb_le in H. rewrite H. reflexivity.
Qed.

Lemma handle_exception_sleeps (retry : Z) (e : exn) (w : world E) :
  retry < retries PREFS -> (0 <= entropy w (draws w))%Q ->
  handle_exception PREFS retry e w =
  Returned tt
    {| params := params w;
       clock := (clock w + (entropy w (draws w) / 2 + (1 # 10)))%Q;
       trace := trace w ++ [Jittered (entropy w (draws w) / 2 + (1 # 10))%Q];
       entropy := entropy w; draws := S (draws w); remote := remote w |}.
Proof.
  intros H Hr. unfold handle_exception.
  rewrite Z.geb_leb. apply Z.leb_gt in H. rewrite H.
  unfold bind, random_random, sleep.
  assert (Hd : Qltb (entropy w (draws w) / 2 + (1 # 10)) 0 = false).
  { apply Qltb_ge.
    assert (0 <= entropy w (draws w) / 2)%Q
      by (apply Qle_shift_div_l; [reflexivity|lra]).
    lra. }
  rewrite Hd. reflexivity.
Qed.

Lemma serviceable_params (w w' : world E) :
  params w' = params w -> serviceable PREFS w -> serviceable PREFS w'.
Proof.
  unfold serviceable, in_range. intros ->. tauto.
Qed.

(** A rate-limit error on the first attempt ends the call at once. *)
Lemma retry_rate_limited (fuel : nat) (target_function : operation E)
    (args : list value) (w : world E) (e : exn) :
  serviceable PREFS w -> (2 <= fuel)%nat -> 1 <= retries PREFS ->
  fst (target_function args (remote w)) = Raise e ->
  rate_limit_class e = true ->
  exists (w' : world E) (new : list event),
    retry_on_comicvine_error PREFS fuel target_function args w = Raised e w'
    /\ trace w' = trace w ++ new
    /\ steps new = [Took; Called 1]
    /\ draws w' = draws w
    /\ remote w' = snd (target_function args (remote w)).
Proof.
  intros Hs Hf Hn He Hc.
  unfold retry_on_comicvine_error.
  rewrite py_range_cons by lia. cbn [retry_loop]. unfold bind at 1.
  destruct (consume_serviceable fuel w Hs Hf)
    as (w1 & d & k & Hcons & Hs1 & Htr & Hen & Hdr & Hrem).
  rewrite Hcons, call_target_eq. cbv zeta. rewrite Hrem, He.
  unfold bind. rewrite (handler_rate_limit 1 e Hc). unfold raise.
  eexists. exists (repeat (Waited d) k ++ [Took] ++ [Called 1]).
  split; [reflexivity|]. cbn [trace draws remote].
  split; [rewrite Htr, <- !app_assoc; reflexivity|].
  split; [rewrite steps_app, steps_waits; reflexivity|].
  split; [exact Hdr|reflexivity].
Qed.

(** When every attempt fails with a transient error, the loop runs through
    all remaining values of [retry] and the last exception comes out. *)
Lemma retry_loop_exhausted (fuel : nat) (target_function : operation E)
    (args : list value) :
  (2 <= fuel)%nat ->
  always_transient target_function args ->
  forall (m : nat) (a : Z) (w : world E),
    retries PREFS = a + Z.of_nat m ->
    serviceable PREFS w -> unit_entropy w ->
    exists (e : exn) (w' : world E) (new : list event),
      retry_loop PREFS fuel target_function args
        (py_range a (retries PREFS + 1)) w = Raised e w'
      /\ fst (target_function args
                (remote_after target_function args m (remote w))) = Raise e
      /\ remote w' = remote_after target_function args (S m) (remote w)
      /\ trace w' = trace w ++ new
      /\ steps new = attempt_steps (entropy w) (draws w) a (S m)
      /\ draws w' = (draws w + m)%nat.
Proof.
  intros Hf Hall m. induction m as [|m IH]; intros a w Hn Hs Hu.
  - rewrite py_range_cons by lia.
    rewrite (py_range_nil (a + 1)) by lia.
    cbn [retry_loop]. unfold bind at 1.
    destruct (consume_serviceable fuel w Hs Hf)
      as (w1 & d & k & Hcons & Hs1 & Htr & Hen & Hdr & Hrem).
    rewrite Hcons, call_target_eq. cbv zeta. rewrite Hrem.
    pose proof (Hall (remote w)) as Ht.
    destruct (fst (target_function args (remote w))) as [v|e] eqn:Hfst;
      [contradiction|].
    unfold bind. rewrite (handler_transient a e Ht).
    rewrite handle_exception_last by lia.
    exists e. eexists. exists (repeat (Waited d) k ++ [Took] ++ [Called a]).
    split; [reflexivity|]. cbn [trace draws remote remote_after].
    split; [exact Hfst|]. split; [reflexivity|].
    split; [rewrite Htr, <- !app_assoc; reflexivity|].
    split; [rewrite steps_app, steps_waits; reflexivity|lia].
  - rewrite py_range_cons by lia.
    cbn [retry_loop]. unfold bind at 1.
    destruct (consume_serviceable fuel w Hs Hf)
      as (w1 & d & k & Hcons & Hs1 & Htr & Hen & Hdr & Hrem).
    rewrite Hcons, call_target_eq. cbv zeta. rewrite Hrem.
    pose proof (Hall (remote w)) as Ht.
    destruct (fst (target_function args (remote w))) as [v|e] eqn:Hfst;
      [contradiction|].
    unfold bind at 1. rewrite (handler_transient a e Ht).
    rewrite handle_exception_sleeps;
      [|lia|cbn [entropy draws]; rewrite Hen; apply Hu].
    cbn [params clock trace entropy draws remote].
    set (w2 := {| params := params w1 |}).
    destruct (IH (a + 1) w2) as (e' & w' & new & Hrun & Hlast & Hrem' & Htr' & Hst & Hdr').
    + lia.
    + apply (serviceable_params w1); [reflexivity|exact Hs1].
    + intros n. subst w2. cbn [entropy]. rewrite Hen. apply Hu.
    + exists e', w'.
      exists (repeat (Waited d) k ++ [Took] ++ [Called a]
              ++ [Jittered (entropy w (draws w) / 2 + (1 # 10))%Q] ++ new).
      split; [exact Hrun|].
      subst w2. cbn [trace draws remote entropy] in *.
      split; [exact Hlast|]. split; [exact Hrem'|].
      split.
      { rewrite Htr', Htr, Hen, Hdr, <- !app_assoc. reflexivity. }
      split.
      { rewrite steps_app, steps_waits.
        change (steps ([Took] ++ [Called a] ++ [Jittered _] ++ new))
          with (Took :: Called a :: Jittered (entropy w (draws w) / 2 + (1 # 10))%Q
                  :: steps new).
        rewrite Hst, Hen, Hdr. reflexivity. }
      lia.
Qed.

Lemma filter_called_steps (l : list event) :
  List.filter is_called (steps l) = List.filter is_called l.
Proof.
  induction l as [|ev l IH]; [reflexivity|].
  destruct ev; simpl; rewrite ?IH; reflexivity.
Qed.

Lemma filter_took_steps (l : list event) :
  List.filter is_took (steps l) = List.filter is_took l.
Proof.
  induction l as [|ev l IH]; [reflexivity|].
  destruct ev; simpl; rewrite ?IH; reflexivity.
Qed.

Lemma short_jitter_steps (l : list event) :
  Forall short_jitter (steps l) -> Forall short_jitter l.
Proof.
  induction l as [|ev l IH]; intros H; [constructor|].
  destruct ev; simpl in H.
  - constructor; [exact I|auto].
  - inversion H; subst. constructor; auto.
  - inversion H; subst. constructor; auto.
  - inversion H; subst. constructor; auto.
Qed.

Lemma attempt_steps_called (rnd : nat -> Q) (n : nat) :
  forall (draw : nat) (a : Z),
    length (List.filter is_called (attempt_steps rnd draw a n)) = n.
Proof.
  induction n as [|n IH]; intros draw a; [reflexivity|].
  destruct n as [|n]; [reflexivity|].
  change (attempt_steps rnd draw a (S (S n)))
    with (Took :: Called a :: Jittered (rnd draw / 2 + (1 # 10))%Q
            :: attempt_steps rnd (S draw) (a + 1) (S n)).
  cbn [List.filter is_called length]. rewrite IH. reflexivity.
Qed.

Lemma attempt_steps_took (rnd : nat -> Q) (n : nat) :
  forall (draw : nat) (a : Z),
    length (List.filter is_took (attempt_steps rnd draw a n)) = n.
Proof.
  induction n as [|n IH]; intros draw a; [reflexivity|].
  destruct n as [|n]; [reflexivity|].
  change (attempt_steps rnd draw a (S (S n)))
    with (Took :: Called a :: Jittered (rnd draw / 2 + (1 # 10))%Q
            :: attempt_steps rnd (S draw) (a + 1) (S n)).
  cbn [List.filter is_took length]. rewrite IH. reflexivity.
Qed.

Lemma attempt_steps_short (rnd : nat -> Q) (n : nat) :
  (forall i : nat, (0 <= rnd i)%Q /\ (rnd i < 1)%Q) ->
  forall (draw : nat) (a : Z),
    Forall short_jitter (attempt_steps rnd draw a n).
Proof.
  intros Hr. induction n as [|n IH]; intros draw a; [constructor|].
  destruct n as [|n]; [repeat constructor|].
  change (attempt_steps rnd draw a (S (S n)))
    with (Took :: Called a :: Jittered (rnd draw / 2 + (1 # 10))%Q
            :: attempt_steps rnd (S draw) (a + 1) (S n)).
  constructor; [exact I|]. constructor; [exact I|].
  constructor; [|apply IH].
  destruct (Hr draw) as [H0 H1]. simpl.
  assert (0 <= rnd draw / 2)%Q
    by (apply Qle_shift_div_l; [reflexivity|lra]).
  assert (rnd draw / 2 < 1 # 2)%Q
    by (apply Qlt_shift_div_r; [reflexivity|lra]).
  split; lra.
Qed.

Lemma attempts_app (w w' : world E) (new : list event) :
  trace w' = trace w ++ new ->
  attempts w' = attempts w + Z.of_nat (length (List.filter is_called (steps new))).
Proof.
  intros H. unfold attempts.
  rewrite H, List.filter_app, List.length_app, filter_called_steps. lia.
Qed.

Lemma taken_app (w w' : world E) (new : list event) :
  trace w' = trace w ++ new ->
  taken w' = taken w + Z.of_nat (length (List.filter is_took (steps new))).
Proof.
  intros H. unfold taken.
  rewrite H, List.filter_app, List.length_app, filter_took_steps. lia.
Qed.

(** C9. For an operation that always fails with an HTTP error of status
    [code]: the error is of the rate-limit class exactly when [code] is 420;
    the wrapper then makes one attempt, and for every other status, 429
    included, it makes all [retries] attempts. The error raised is the HTTP
    error itself. *)
Theorem C9_only_status_420_is_rate_limit (fuel : nat)
    (target_function : operation E) (args : list value) (w : world E)
    (code : Z) (message : string) :
  serviceable PREFS w -> unit_entropy w -> (2 <= fuel)%nat ->
  1 <= retries PREFS ->
  (forall r : E,
      fst (target_function args r) = Raise (HTTPError code message)) ->
  (rate_limit_class (HTTPError code message) = true <-> code = 420)
  /\ exists w' : world E,
       retry_on_comicvine_error PREFS fuel target_function args w
       = Raised (HTTPError code message) w'
       /\ attempts w' = attempts w + (if code =? 420 then 1 else retries PREFS).
Proof.
  intros Hs Hu Hf Hn Hall.
  split; [simpl; apply Z.eqb_eq|].
  destruct (code =? 420) eqn:Hc.
  - destruct (retry_rate_limited fuel target_function args w
                (HTTPError code message) Hs Hf Hn (Hall _))
      as (w' & new & Hrun & Htr & Hst & _); [simpl; exact Hc|].
    exists w'. split; [exact Hrun|].
    rewrite (attempts_app w w' new Htr), Hst. reflexivity.
  - assert (Htrans : always_transient target_function args).
    { intros r. rewrite (Hall r). simpl. exact Hc. }
    destruct (retry_loop_exhausted fuel target_function args Hf Htrans
                (Z.to_nat (retries PREFS) - 1) 1 w) as
      (e & w' & new & Hrun & Hlast & Hrem & Htr & Hst & Hdr);
      [lia|exact Hs|exact Hu|].
    rewrite (Hall _) in Hlast. inversion Hlast; subst e.
    exists w'. split; [exact Hrun|].
    rewrite (attempts_app w w' new Htr), Hst, attempt_steps_called. lia.
Qed.

(** C10. With [retries] zero or negative the loop body never runs: the
    wrapper returns [None] and leaves the world as it was, so the operation
    was not invoked, no token was taken and nothing was raised. *)
Theorem C10_no_retries_means_no_attempt (fuel : nat)
    (target_function : operation E) (args : list value) (w : world E) :
  retries PREFS <= 0 ->
  retry_on_comicvine_error PREFS fuel target_function args w
  = Returned VNone w.
Proof.
  intros H. unfold retry_on_comicvine_error.
  rewrite py_range_nil by lia. reflexivity.
Qed.

End RetryFacts.

Lemma sample_world_serviceable : serviceable sample_prefs sample_world_nat.
Proof.
  unfold serviceable, in_range. simpl.
  split; [reflexivity|lia].
Qed.

Lemma sample_world_entropy : unit_entropy sample_world_nat.
Proof. intros n. simpl. split; [discriminate|reflexivity]. Qed.

Lemma C9_witness :
  (rate_limit_class (HTTPError 429 "error") = true <-> 429 = 420)
  /\ exists w' : world nat,
       retry_on_comicvine_error sample_prefs 2 (always_http 429) []
         sample_world_nat
       = Raised (HTTPError 429 "error") w'
       /\ attempts w' = attempts sample_world_nat + 3.
Proof.
  apply (C9_only_status_420_is_rate_limit sample_prefs 2 (always_http 429) []
           sample_world_nat 429 "error").
  - exact sample_world_serviceable.
  - exact sample_world_entropy.
  - lia.
  - simpl. lia.
  - intros r. reflexivity.
Defined.

Lemma C10_witness :
  retry_on_comicvine_error no_retry_prefs 2 always_timeout [] sample_world_nat
  = Returned VNone sample_world_nat.
Proof.
  apply (C10_no_retries_means_no_attempt no_retry_prefs 2 always_timeout []
           sample_world_nat).
  simpl. lia.
Defined.

(** The three attempts of the sample run, with the waits of the bucket in
    between. *)
Example retry_sample_trace :
  option_map (fun w => steps (trace w))
    (world_after
       (retry_on_comicvine_error sample_prefs 2 always_timeout []
          sample_world_nat))
  = Some [Took; Called 1; Jittered (18 # 80); Took; Called 2;
          Jittered (18 # 80); Took; Called 3].
Proof. vm_compute. reflexivity. Qed.

(** Status 420 stops after one attempt, status 429 is retried. *)
Example retry_sample_420 :
  option_map (fun w => steps (trace w))
    (world_after
       (retry_on_comicvine_error sample_prefs 2 (always_http 420) []
          sample_world_nat))
  = Some [Took; Called 1].
Proof. vm_compute. reflexivity. Qed.

(** ** The cache decorator *)

(** C8. When [os.getenv('TMPDIR')] is [None], [cache_comicvine] hands back
    the function it was given: a call of the decorated method is the call
    of the rate-limited, retried operation, with the same result (value or
    exception) and the same effects, whatever the cache library would do. *)
Theorem C8_cache_disabled_without_tmpdir {E : Type} (PREFS : prefs)
    (FSCache : string -> method E -> method E) (cache_name : string)
    (fuel : nat) (target_function : operation E) (args : list value)
    (w : world E) :
  cache_comicvine FSCache None cache_name
    (retry_on_comicvine_error PREFS fuel target_function) args w
  = retry_on_comicvine_error PREFS fuel target_function args w.
Proof. reflexivity. Qed.

(** With a temporary directory the call goes through the cache library,
    keyed by the arguments after [self]. *)
Lemma cache_enabled_with_tmpdir {E : Type}
    (FSCache : string -> method E -> method E) (dir cache_name : string)
    (target_function : method E) (self : value) (rest : list value) :
  cache_comicvine FSCache (Some dir) cache_name target_function (self :: rest)
  = FSCache (dir +:+ "/calibre-comicvine/" +:+ cache_name)%string
      (fun args' => target_function (self :: args')) rest.
Proof. reflexivity. Qed.

(** ** Cover lookup *)

Lemma collect_urls_all (d : gmap string string) :
  collect_urls d false url_keys [] = available_urls d.
Proof.
  unfold url_keys, available_urls, url_of. cbn [collect_urls].
  destruct (d !! "super_url"), (d !! "medium_url"), (d !! "small_url");
    reflexivity.
Qed.

Lemma collect_urls_best (d : gmap string string) :
  collect_urls d true url_keys [] = take 1 (available_urls d).
Proof.
  unfold url_keys, available_urls, url_of. cbn [collect_urls].
  destruct (d !! "super_url"), (d !! "medium_url"), (d !! "small_url");
    reflexivity.
Qed.

Lemma available_urls_empty : available_urls ∅ = [].
Proof. reflexivity. Qed.

(** C7. [lookup_issue_image_urls] returns the URLs the issue's image
    offers in the order super, medium, small; with [get_best_cover] only
    the first of them, so at most one; and the empty list when the issue or
    its image is absent. *)
Theorem C7_image_urls_in_quality_order (fetch : Z -> option issue)
    (issue_id : Z) (get_best_cover : bool) :
  lookup_issue_image_urls fetch issue_id get_best_cover
  = (if get_best_cover then take 1 (issue_urls fetch issue_id)
     else issue_urls fetch issue_id)
  /\ (length (lookup_issue_image_urls fetch issue_id true) <= 1)%nat
  /\ (fetch issue_id = None ->
      lookup_issue_image_urls fetch issue_id get_best_cover = [])
  /\ (forall iss : issue,
        fetch issue_id = Some iss -> image iss = None ->
        lookup_issue_image_urls fetch issue_id get_best_cover = []).
Proof.
  assert (Heq : forall b,
             lookup_issue_image_urls fetch issue_id b
             = if b then take 1 (issue_urls fetch issue_id)
               else issue_urls fetch issue_id).
  { intros b. unfold lookup_issue_image_urls, issue_urls.
    destruct (fetch issue_id) as [[[d|]]|]; simpl;
      [|destruct b; reflexivity|destruct b; reflexivity].
    case_bool_decide as Hd; simpl.
    - subst d. rewrite available_urls_empty. destruct b; reflexivity.
    - destruct b; [apply collect_urls_best|apply collect_urls_all]. }
  split; [apply Heq|].
  split; [rewrite Heq; rewrite length_take; lia|].
  split.
  - intros H. unfold lookup_issue_image_urls. rewrite H. reflexivity.
  - intros iss H Hi. unfold lookup_issue_image_urls. rewrite H, Hi.
    reflexivity.
Qed.

Lemma C7_witness :
  lookup_issue_image_urls sample_catalog 9 true
  = take 1 (issue_urls sample_catalog 9)
  /\ (length (lookup_issue_image_urls sample_catalog 9 true) <= 1)%nat
  /\ (sample_catalog 9 = None ->
      lookup_issue_image_urls sample_catalog 9 true = [])
  /\ (forall iss : issue,
        sample_catalog 9 = Some iss -> image iss = None ->
        lookup_issue_image_urls sample_catalog 9 true = []).
Proof. exact (C7_image_urls_in_quality_order sample_catalog 9 true). Defined.

Example image_urls_all :
  lookup_issue_image_urls sample_catalog 7 false
  = ["http://cv/xl.jpg"; "http://cv/s.jpg"].
Proof. vm_compute. reflexivity. Qed.

Example image_urls_best :
  lookup_issue_image_urls sample_catalog 7 true = ["http://cv/xl.jpg"].
Proof. vm_compute. reflexivity. Qed.

Example image_urls_no_image :
  lookup_issue_image_urls sample_catalog 8 false = [].
Proof. reflexivity. Qed.

(** ** Ranking *)

Section RankingFacts.

Import Ranking.

Lemma score_fold (t : string) (tokens : list string) (score : Z) :
  fold_left
    (fun score token =>
       if contains t (lower token) then score else score + 10)
    tokens score
  = score
    + 10 * Z.of_nat
             (length
                (List.filter
                   (fun token => negb (contains t (lower token))) tokens)).
Proof.
  revert score. induction tokens as [|token tokens IH]; intros score.
  - simpl. lia.
  - cbn [fold_left List.filter]. rewrite IH.
    destruct (contains t (lower token)); cbn [negb length]; lia.
Qed.

(** C5. [score_title_tokens] is ten times the number of tokens whose
    lowercased text does not occur in the lowercased, stripped title; the
    values asserted by [test_score_title_tokens] follow. *)
Theorem C5_score_title_tokens (title : string) (tokens : list string) :
  score_title_tokens title tokens
  = 10 * Z.of_nat
           (length
              (List.filter
                 (fun token =>
                    negb (contains (strip (lower title)) (lower token)))
                 tokens))
  /\ score_title_tokens title [] = 0
  /\ score_title_tokens "Dogville" ["awakening"] = 10
  /\ score_title_tokens "Dogville" ["dogville"; "awakening"] = 10
  /\ score_title_tokens "Dogville" ["dogville"; "awakening"; "by"; "cats"]
     = 30
  /\ score_title_tokens "dogville" ["dogville"] = 0
  /\ score_title_tokens "Dogville" ["dogville"] = 0
  /\ score_title_tokens "  Dogville  " ["dogville"] = 0.
Proof.
  split; [unfold score_title_tokens; rewrite score_fold; lia|].
  repeat split; reflexivity.
Qed.

(** C6. [score_publish_date] is 10 without a known date, whatever the
    title; with a known date it is 0 when the title carries no parenthesised
    four-digit year and the absolute difference of the years otherwise; the
    values asserted by [test_score_publish_date] follow. *)
Theorem C6_score_publish_date (title : string) (known : date) :
  score_publish_date title None = 10
  /\ score_publish_date title (Some known)
     = match title_year title with
       | None => 0
       | Some y => Z.abs (y - year known)
       end
  /\ title_year "Dogville #2" = None
  /\ title_year "Dogville #2 (2000)" = Some 2000
  /\ score_publish_date "Dogville #2" None = 10
  /\ score_publish_date "Dogville #2 (2000)" None = 10
  /\ score_publish_date "Dogville #2" (Some {| year := 2000 |}) = 0
  /\ score_publish_date "Dogville #2 (2000)" (Some {| year := 1984 |}) = 16
  /\ score_publish_date "Dogville #2 (2000)" (Some {| year := 1999 |}) = 1
  /\ score_publish_date "Dogville #2 (2000)" (Some {| year := 2001 |}) = 1
  /\ score_publish_date "Dogville #2 (2000)" (Some {| year := 2016 |}) = 16
  /\ score_publish_date "Dogville #2 (2000)" (Some {| year := 2000 |}) = 0.
Proof. repeat split; reflexivity. Qed.

End RankingFacts.

(** * Further properties of the token bucket *)

Section BucketMore.

Context {E : Type}.
Variable PREFS : prefs.

(** One round of the waiting loop. *)
Lemma consume_wait_step (fuel : nat) (interval tslr : Q) (w : world E) :
  consume_wait PREFS (S fuel) interval tslr w =
  match tokens PREFS w with
  | Returned t w1 =>
      if t <? 1 then
        if Qltb (consume_delay interval tslr) 0
        then Raised (OtherException "IOError" "[Errno 22] Invalid argument") w1
        else consume_wait PREFS fuel interval tslr
               (after_wait (consume_delay interval tslr) w1)
      else Returned tt w1
  | Raised e w1 => Raised e w1
  | Unfinished => Unfinished
  end.
Proof.
  cbn [consume_wait]. unfold bind at 1.
  destruct (tokens PREFS w) as [t w1|e w1|]; try reflexivity.
  destruct (t <? 1); [|reflexivity].
  unfold bind at 1. unfold sleep.
  destruct (Qltb (consume_delay interval tslr) 0); reflexivity.
Qed.

Lemma consume_unfold (fuel : nat) (w : world E) :
  consume PREFS fuel w =
  match consume_wait PREFS fuel (request_interval PREFS)
          (clock w - p_update (params w))%Q w with
  | Returned _ w1 => Returned tt (after_take w1)
  | Raised e w1 => Raised e w1
  | Unfinished => Unfinished
  end.
Proof.
  unfold consume, bind.
  destruct (consume_wait PREFS fuel _ _ w) as [[] w1|e w1|]; reflexivity.
Qed.

(** A relation between worlds that is reflexive and transitive and holds
    across every read of [tokens] and every sleep holds across the waiting
    loop; if it also holds across the decrement it holds across [consume];
    if it also holds across moves of the clock it holds across any sequence
    of calls. *)
Lemma consume_wait_closure (R : world E -> world E -> Prop) :
  (forall w, R w w) ->
  (forall a b c, R a b -> R b c -> R a c) ->
  (forall w,
      match tokens PREFS w with
      | Returned _ w' => R w w'
      | Raised _ w' => R w w'
      | Unfinished => True
      end) ->
  (forall d w, R w (after_wait d w)) ->
  forall (fuel : nat) (interval tslr : Q) (w : world E),
    match consume_wait PREFS fuel interval tslr w with
    | Returned _ w' => R w w'
    | Raised _ w' => R w w'
    | Unfinished => True
    end.
Proof.
  intros Hrefl Htrans Htok Hwait fuel interval tslr.
  induction fuel as [|fuel IH]; intros w; [exact I|].
  rewrite consume_wait_step.
  specialize (Htok w).
  destruct (tokens PREFS w) as [t w1|e w1|]; [|exact Htok|exact I].
  destruct (t <? 1); [|exact Htok].
  destruct (Qltb (consume_delay interval tslr) 0); [exact Htok|].
  specialize (IH (after_wait (consume_delay interval tslr) w1)).
  destruct (consume_wait PREFS fuel interval tslr _) as [u w2|e w2|];
    [| |exact I];
    (eapply Htrans; [exact Htok|]; eapply Htrans; [apply Hwait|exact IH]).
Qed.

Lemma consume_closure (R : world E -> world E -> Prop) :
  (forall w, R w w) ->
  (forall a b c, R a b -> R b c -> R a c) ->
  (forall w,
      match tokens PREFS w with
      | Returned _ w' => R w w'
      | Raised _ w' => R w w'
      | Unfinished => True
      end) ->
  (forall d w, R w (after_wait d w)) ->
  (forall w, R w (after_take w)) ->
  forall (fuel : nat) (w : world E),
    match consume PREFS fuel w with
    | Returned _ w' => R w w'
    | Raised _ w' => R w w'
    | Unfinished => True
    end.
Proof.
  intros Hrefl Htrans Htok Hwait Htake fuel w.
  rewrite consume_unfold.
  pose proof (consume_wait_closure R Hrefl Htrans Htok Hwait fuel
                (request_interval PREFS)
                (clock w - p_update (params w))%Q w) as Hw.
  destruct (consume_wait PREFS fuel _ _ w) as [u w1|e w1|];
    [|exact Hw|exact I].
  eapply Htrans; [exact Hw|apply Htake].
Qed.

Lemma run_calls_closure (R : world E -> world E -> Prop) :
  (forall w, R w w) ->
  (forall a b c, R a b -> R b c -> R a c) ->
  (forall w,
      match tokens PREFS w with
      | Returned _ w' => R w w'
      | Raised _ w' => R w w'
      | Unfinished => True
      end) ->
  (forall d w, R w (after_wait d w)) ->
  (forall w, R w (after_take w)) ->
  (forall t w, R w (set_clock t w)) ->
  forall (fuel : nat) (cs : list call) (w w' : world E),
    run_calls PREFS fuel cs w = Some w' -> R w w'.
Proof.
  intros Hrefl Htrans Htok Hwait Htake Hclock fuel cs.
  induction cs as [|c cs IH]; intros w w' Hrun.
  - inversion Hrun; subst. apply Hrefl.
  - simpl in Hrun.
    destruct (run_call PREFS fuel c w) as [w1|] eqn:Hc; [|discriminate].
    eapply Htrans; [|exact (IH _ _ Hrun)].
    destruct c as [| |d]; simpl in Hc.
    + pose proof (consume_closure R Hrefl Htrans Htok Hwait Htake fuel w)
        as Hcons.
      destruct (consume PREFS fuel w) as [u w2|e w2|]; simpl in Hc;
        [| |discriminate]; inversion Hc; subst; exact Hcons.
    + specialize (Htok w).
      destruct (tokens PREFS w) as [t w2|e w2|]; simpl in Hc;
        [| |discriminate]; inversion Hc; subst; exact Htok.
    + inversion Hc; subst. apply Hclock.
Qed.

(** The last-update timestamp never moves backwards, not even when the
    wall clock does. *)
Theorem update_never_decreases (fuel : nat) (cs : list call)
    (w w' : world E) :
  run_calls PREFS fuel cs w = Some w' ->
  (p_update (params w) <= p_update (params w'))%Q.
Proof.
  apply (run_calls_closure
           (fun a b => (p_update (params a) <= p_update (params b))%Q)).
  - intros a. apply Qle_refl.
  - intros a b c. apply Qle_trans.
  - intros a. unfold tokens.
    destruct (p_tokens (params a) <? request_batch_size PREFS);
      [|apply Qle_refl].
    destruct (Qltb 0 (clock a - p_update (params a))) eqn:He;
      [|apply Qle_refl].
    apply Qltb_lt in He.
    destruct (Qeq_bool (request_interval PREFS) 0); [apply Qle_refl|].
    destruct (py_int _ =? 0); [apply Qle_refl|].
    simpl. lra.
  - intros d a. apply Qle_refl.
  - intros a. apply Qle_refl.
  - intros t a. apply Qle_refl.
Qed.

Lemma Qltb_self (x : Q) : Qltb 0 (x - x) = false.
Proof. apply Qltb_ge. lra. Qed.

(** Reading [tokens] again at the same instant changes nothing and gives
    the same count, whatever the settings. *)
Theorem tokens_read_idempotent (w w1 : world E) (t : Z) :
  tokens PREFS w = Returned t w1 ->
  tokens PREFS w1 = Returned t w1.
Proof.
  intros H. pose proof H as H0. unfold tokens in H.
  destruct (p_tokens (params w) <? request_batch_size PREFS) eqn:Hlt;
    [|inversion H; subst; exact H0].
  destruct (Qltb 0 (clock w - p_update (params w))) eqn:He;
    [|inversion H; subst; exact H0].
  destruct (Qeq_bool (request_interval PREFS) 0); [discriminate|].
  destruct (py_int _ =? 0); [inversion H; subst; exact H0|].
  injection H as Ht Hw. rewrite Ht in Hw. subst w1. clear Ht H0.
  unfold tokens. cbn [params set_params p_tokens p_update clock].
  rewrite Qltb_self.
  destruct (t <? request_batch_size PREFS); reflexivity.
Qed.

(** With a token banked, [consume()] does not sleep: it takes the token at
    once and the clock has not moved. *)
Theorem consume_banked_token_no_wait (fuel : nat) (w : world E) :
  (0 < request_interval PREFS)%Q ->
  1 <= p_tokens (params w) ->
  (1 <= fuel)%nat ->
  exists w' : world E,
    consume PREFS fuel w = Returned tt w'
    /\ trace w' = trace w ++ [Took]
    /\ clock w' = clock w
    /\ p_tokens (params w) - 1 <= p_tokens (params w').
Proof.
  intros Hi H1 Hf. destruct fuel as [|fuel]; [lia|].
  rewrite consume_unfold, consume_wait_step.
  destruct (tokens_returns PREFS w Hi) as (t & w1 & Ht).
  pose proof (tokens_spec PREFS w (Qlt_le_weak _ _ Hi)) as Hs.
  rewrite Ht in Hs. rewrite Ht.
  destruct Hs as (Hv & Hle & _ & Htr & Hck & _).
  assert (Hnlt : (t <? 1) = false) by (apply Z.ltb_ge; lia).
  rewrite Hnlt. eexists. split; [reflexivity|].
  unfold after_take. cbn [trace clock params p_tokens].
  rewrite Htr, Hck. repeat split; lia.
Qed.

Lemma consume_delay_nonneg (interval tslr : Q) :
  (0 <= interval)%Q -> (0 <= consume_delay interval tslr)%Q.
Proof.
  intros Hi. unfold consume_delay.
  destruct (Qltb tslr interval) eqn:Hq; [|exact Hi].
  apply Qltb_lt in Hq. lra.
Qed.

(** A bucket without room for a token (batch size zero or less) and
    without a banked one never serves: [consume()] sleeps round after round
    and no amount of fuel lets it return or raise. *)
Theorem consume_never_returns_without_room (fuel : nat) (w : world E) :
  (0 <= request_interval PREFS)%Q ->
  request_batch_size PREFS <= p_tokens (params w) ->
  p_tokens (params w) < 1 ->
  consume PREFS fuel w = Unfinished.
Proof.
  intros Hi Hb Hlt. rewrite consume_unfold.
  generalize (clock w - p_update (params w))%Q as tslr. intros tslr.
  assert (Hloop : forall (n : nat) (a : world E),
             request_batch_size PREFS <= p_tokens (params a) ->
             p_tokens (params a) < 1 ->
             consume_wait PREFS n (request_interval PREFS) tslr a
             = Unfinished).
  { induction n as [|n IH]; intros a Ha Ha1; [reflexivity|].
    rewrite consume_wait_step. unfold tokens.
    assert (Hfull : (p_tokens (params a) <? request_batch_size PREFS) = false)
      by (apply Z.ltb_ge; exact Ha).
    rewrite Hfull.
    assert (H1 : (p_tokens (params a) <? 1) = true)
      by (apply Z.ltb_lt; exact Ha1).
    rewrite H1.
    assert (Hd : Qltb (consume_delay (request_interval PREFS) tslr) 0 = false)
      by (apply Qltb_ge, consume_delay_nonneg; exact Hi).
    rewrite Hd. apply IH; assumption. }
  rewrite (Hloop fuel w Hb Hlt). reflexivity.
Qed.

(** A read of [tokens] leaves everything but the bucket alone, and a read
    that raises leaves everything alone. *)
Lemma tokens_frame (w w' : world E) (t : Z) :
  tokens PREFS w = Returned t w' ->
  clock w' = clock w /\ entropy w' = entropy w
  /\ draws w' = draws w /\ remote w' = remote w.
Proof.
  unfold tokens. intros H.
  repeat match type of H with
         | context [if ?b then _ else _] => destruct b
         end; inversion H; subst; simpl; auto.
Qed.

Lemma tokens_raised (w w' : world E) (e : exn) :
  tokens PREFS w = Raised e w' -> w' = w.
Proof.
  unfold tokens. intros H.
  repeat match type of H with
         | context [if ?b then _ else _] => destruct b
         end; inversion H; subst; auto.
Qed.

Lemma inject_Z_succ_mul (k : nat) (d : Q) :
  (inject_Z (Z.of_nat (S k)) * d == d + inject_Z (Z.of_nat k) * d)%Q.
Proof.
  assert (H : (inject_Z (Z.of_nat (S k)) == 1 + inject_Z (Z.of_nat k))%Q)
    by (unfold Qeq, inject_Z; simpl; lia).
  rewrite H. ring.
Qed.

(** The waiting loop, however it is left: it has slept some number of
    times, always the one delay fixed at entry, and the clock has moved on by
    exactly that much; when it is left normally a token is there. *)
Lemma consume_wait_ledger (fuel : nat) (interval tslr : Q) :
  forall w : world E,
    match consume_wait PREFS fuel interval tslr w with
    | Returned _ w1 =>
        1 <= p_tokens (params w1)
        /\ exists k : nat,
             trace w1 = trace w ++ repeat (Waited (consume_delay interval tslr)) k
             /\ (clock w1
                 == clock w
                    + inject_Z (Z.of_nat k) * consume_delay interval tslr)%Q
    | Raised _ w1 =>
        exists k : nat,
          trace w1 = trace w ++ repeat (Waited (consume_delay interval tslr)) k
          /\ (clock w1
              == clock w
                 + inject_Z (Z.of_nat k) * consume_delay interval tslr)%Q
    | Unfinished => True
    end.
Proof.
  set (d := consume_delay interval tslr).
  assert (Hzero : forall a b : world E,
             trace b = trace a -> clock b = clock a ->
             exists k : nat,
               trace b = trace a ++ repeat (Waited d) k
               /\ (clock b == clock a + inject_Z (Z.of_nat k) * d)%Q).
  { intros a b Ht Hc. exists O. simpl. rewrite app_nil_r, Hc.
    split; [exact Ht|]. unfold inject_Z. ring. }
  induction fuel as [|fuel IH]; intros w; [exact I|].
  rewrite consume_wait_step. fold d.
  destruct (tokens PREFS w) as [t w1|e w1|] eqn:Ht; [| |exact I].
  - destruct (tokens_value PREFS _ _ _ Ht) as (Hv & Htr).
    destruct (tokens_frame _ _ _ Ht) as (Hck & _).
    destruct (t <? 1) eqn:Hlt.
    + destruct (Qltb d 0); [apply Hzero; assumption|].
      specialize (IH (after_wait d w1)).
      assert (Hshift : forall b : world E,
                 (exists k : nat,
                     trace b = trace (after_wait d w1) ++ repeat (Waited d) k
                     /\ (clock b
                         == clock (after_wait d w1)
                            + inject_Z (Z.of_nat k) * d)%Q) ->
                 exists k : nat,
                   trace b = trace w ++ repeat (Waited d) k
                   /\ (clock b == clock w + inject_Z (Z.of_nat k) * d)%Q).
      { intros b (k & Hk & Hc). exists (S k).
        unfold after_wait in Hk, Hc. cbn [trace clock] in Hk, Hc.
        split.
        - rewrite Hk, Htr, <- app_assoc. reflexivity.
        - rewrite Hc, Hck, inject_Z_succ_mul. ring. }
      destruct (consume_wait PREFS fuel interval tslr (after_wait d w1))
        as [u w2|e w2|]; [| |exact I].
      * destruct IH as [H1 Hk]. split; [exact H1|apply Hshift, Hk].
      * apply Hshift, IH.
    + apply Z.ltb_ge in Hlt. split; [lia|apply Hzero; assumption].
  - apply tokens_raised in Ht. subst w1. apply Hzero; reflexivity.
Qed.

(** C4 (as amended). In every round of [consume()]'s loop in which the read
    of [tokens] gives less than one, the loop sleeps
    [interval - time_since_last_request] if that elapsed time, taken once at
    entry, is below the interval, and [interval] otherwise: the clock moves
    on by that delay and the count is read again; a round whose read gives at
    least one leaves the loop, and a [consume()] whose read gives [t >= 1]
    returns at once and leaves [t - 1] as the persisted count. Whenever
    [consume()] returns, the count it leaves is the count the loop found,
    which was at least one, minus exactly one; however it ends, the clock has
    moved on by the number of sleeps times that delay. *)
Theorem C4_consume_delay_and_decrement (fuel : nat) (w : world E) :
  let interval := request_interval PREFS in
  let time_since_last_request := (clock w - p_update (params w))%Q in
  let delay :=
    if Qltb time_since_last_request interval
    then (interval - time_since_last_request)%Q
    else interval in
  (forall (n : nat) (a a1 : world E) (t : Z),
      tokens PREFS a = Returned t a1 ->
      (t < 1 -> (0 <= delay)%Q ->
       consume_wait PREFS (S n) interval time_since_last_request a
       = consume_wait PREFS n interval time_since_last_request
           (after_wait delay a1)
       /\ clock (after_wait delay a1) = (clock a1 + delay)%Q
       /\ params (after_wait delay a1) = params a1)
      /\ (1 <= t ->
          consume_wait PREFS (S n) interval time_since_last_request a
          = Returned tt a1
          /\ exists a' : world E,
               consume PREFS (S n) a = Returned tt a'
               /\ p_tokens (params a') = t - 1
               /\ p_update (params a') = p_update (params a1)
               /\ clock a' = clock a1
               /\ trace a' = trace a1 ++ [Took]))
  /\ match consume PREFS fuel w with
     | Returned _ w' =>
         exists (k : nat) (w1 : world E),
           consume_wait PREFS fuel interval time_since_last_request w
           = Returned tt w1
           /\ trace w1 = trace w ++ repeat (Waited delay) k
           /\ (clock w1 == clock w + inject_Z (Z.of_nat k) * delay)%Q
           /\ 1 <= p_tokens (params w1)
           /\ p_tokens (params w') = p_tokens (params w1) - 1
           /\ p_update (params w') = p_update (params w1)
           /\ clock w' = clock w1
           /\ trace w' = trace w1 ++ [Took]
     | Raised _ w' =>
         exists k : nat,
           trace w' = trace w ++ repeat (Waited delay) k
           /\ (clock w' == clock w + inject_Z (Z.of_nat k) * delay)%Q
     | Unfinished => True
     end.
Proof.
  intros interval tslr delay.
  change delay with (consume_delay interval tslr).
  split.
  - intros n a a1 t Ht. split.
    + intros Hlt Hd. rewrite consume_wait_step, Ht.
      apply Z.ltb_lt in Hlt. rewrite Hlt.
      apply Qltb_ge in Hd. rewrite Hd. repeat split.
    + intros Hge.
      assert (Hn : (t <? 1) = false) by (apply Z.ltb_ge; lia).
      split; [rewrite consume_wait_step, Ht, Hn; reflexivity|].
      exists (after_take a1).
      rewrite consume_unfold, consume_wait_step, Ht, Hn.
      destruct (tokens_value PREFS _ _ _ Ht) as (Hv & _).
      unfold after_take. cbn [params p_tokens p_update clock trace].
      repeat split. lia.
  - rewrite consume_unfold. fold interval. fold tslr.
    pose proof (consume_wait_ledger fuel interval tslr w) as Hl.
    destruct (consume_wait PREFS fuel interval tslr w) as [[] w1|e w1|];
      [| |exact I].
    + destruct Hl as (H1 & k & Hk & Hc).
      exists k, w1. unfold after_take. cbn [params p_tokens p_update clock trace].
      repeat split; assumption.
    + destruct Hl as (k & Hk & Hc). exists k. repeat split; assumption.
Qed.

End BucketMore.

Lemma C4_witness :
  (consume_wait sample_prefs 2 (request_interval sample_prefs)
     (clock sample_world - p_update (params sample_world))%Q sample_world
   = consume_wait sample_prefs 1 (request_interval sample_prefs)
       (clock sample_world - p_update (params sample_world))%Q
       (after_wait (10 - (3 - 0))%Q sample_world)
   /\ clock (after_wait (10 - (3 - 0))%Q sample_world)
      = (clock sample_world + (10 - (3 - 0)))%Q
   /\ params (after_wait (10 - (3 - 0))%Q sample_world)
      = params sample_world)
  /\ (exists a' : world unit,
        consume sample_prefs 1 sample_world_minted = Returned tt a'
        /\ p_tokens (params a') = 1 - 1
        /\ p_update (params a') = p_update (params sample_world_minted)
        /\ clock a' = clock sample_world_minted
        /\ trace a' = trace sample_world_minted ++ [Took])
  /\ exists (k : nat) (w1 : world unit),
       consume_wait sample_prefs 2 (request_interval sample_prefs)
         (clock sample_world - p_update (params sample_world))%Q sample_world
       = Returned tt w1
       /\ trace w1 = trace sample_world ++ repeat (Waited (10 - (3 - 0))%Q) k
       /\ (clock w1
           == clock sample_world + inject_Z (Z.of_nat k) * (10 - (3 - 0)))%Q
       /\ 1 <= p_tokens (params w1)
       /\ p_tokens (params sample_world_served) = p_tokens (params w1) - 1
       /\ p_update (params sample_world_served) = p_update (params w1)
       /\ clock sample_world_served = clock w1
       /\ trace sample_world_served = trace w1 ++ [Took].
Proof.
  pose proof (C4_consume_delay_and_decrement sample_prefs 2 sample_world)
    as [Hround Hend].
  split; [|split].
  - destruct (Hround 1%nat sample_world sample_world 0 eq_refl) as [Hlt _].
    apply Hlt; [lia|vm_compute; discriminate].
  - destruct (Hround 0%nat sample_world_minted sample_world_minted 1 eq_refl)
      as [_ Hge].
    apply Hge. lia.
  - assert (Hrun : consume sample_prefs 2 sample_world
                   = Returned tt sample_world_served)
      by (vm_compute; reflexivity).
    rewrite Hrun in Hend. exact Hend.
Defined.

(** * Further properties of the retry decorator *)

Section RetryMore.

Context {E : Type}.
Variable PREFS : prefs.

(** One round of the retry loop. *)
Lemma retry_loop_step (fuel : nat) (target_function : operation E)
    (args : list value) (retry : Z) (rest : list Z) (w : world E) :
  retry_loop PREFS fuel target_function args (retry :: rest) w =
  match consume PREFS fuel w with
  | Returned _ w1 =>
      let w2 := after_call retry (snd (target_function args (remote w1))) w1 in
      match fst (target_function args (remote w1)) with
      | Return v => Returned v w2
      | Raise e =>
          match handler PREFS retry e w2 with
          | Returned _ w3 =>
              retry_loop PREFS fuel target_function args rest w3
          | Raised e' w3 => Raised e' w3
          | Unfinished => Unfinished
          end
      end
  | Raised e w1 => Raised e w1
  | Unfinished => Unfinished
  end.
Proof.
  cbn [retry_loop]. unfold bind at 1.
  destruct (consume PREFS fuel w) as [[] w1|e w1|]; try reflexivity.
  rewrite call_target_eq. cbv zeta.
  destruct (fst (target_function args (remote w1))); reflexivity.
Qed.

(** What the [except] clauses do with an exception. *)
Lemma handler_unfold (retry : Z) (e : exn) (w : world E) :
  handler PREFS retry e w =
  if rate_limit_class e || (retries PREFS <=? retry) then Raised e w
  else if Qltb (entropy w (draws w) / 2 + (1 # 10)) 0
       then Raised (OtherException "IOError" "[Errno 22] Invalid argument")
              {| params := params w; clock := clock w; trace := trace w;
                 entropy := entropy w; draws := S (draws w);
                 remote := remote w |}
       else Returned tt (after_jitter w).
Proof.
  assert (Hex : handle_exception PREFS retry e w =
                if retries PREFS <=? retry then Raised e w
                else if Qltb (entropy w (draws w) / 2 + (1 # 10)) 0
                     then Raised
                            (OtherException "IOError"
                               "[Errno 22] Invalid argument")
                            {| params := params w; clock := clock w;
                               trace := trace w; entropy := entropy w;
                               draws := S (draws w); remote := remote w |}
                     else Returned tt (after_jitter w)).
  { unfold handle_exception. rewrite Z.geb_leb.
    destruct (retries PREFS <=? retry); [reflexivity|].
    unfold bind, random_random, sleep. cbn [entropy draws].
    destruct (Qltb (entropy w (draws w) / 2 + (1 # 10)) 0); reflexivity. }
  destruct e as [m|code m|n m]; cbn [handler rate_limit_class orb].
  - reflexivity.
  - destruct (code =? 420); [reflexivity|exact Hex].
  - exact Hex.
Qed.

Lemma counts_after_wait (d : Q) (w : world E) :
  attempts (after_wait d w) = attempts w /\ taken (after_wait d w) = taken w.
Proof.
  unfold attempts, taken, after_wait. cbn [trace].
  rewrite !List.filter_app. simpl. rewrite !app_nil_r. auto.
Qed.

(** [consume] never invokes the operation; it takes one token when it
    returns and none when it raises. *)
Lemma consume_counts (fuel : nat) (w : world E) :
  match consume PREFS fuel w with
  | Returned _ w' => attempts w' = attempts w /\ taken w' = taken w + 1
  | Raised _ w' => attempts w' = attempts w /\ taken w' = taken w
  | Unfinished => True
  end.
Proof.
  rewrite consume_unfold.
  pose proof (consume_wait_closure PREFS
                (fun a b : world E =>
                   attempts b = attempts a /\ taken b = taken a))
    as Hc.
  specialize (Hc (fun a => conj eq_refl eq_refl)).
  assert (Htrans : forall a b c : world E,
             attempts b = attempts a /\ taken b = taken a ->
             attempts c = attempts b /\ taken c = taken b ->
             attempts c = attempts a /\ taken c = taken a)
    by (intros a b c [] []; split; congruence).
  specialize (Hc Htrans).
  assert (Htok : forall a : world E,
             match tokens PREFS a with
             | Returned _ b => attempts b = attempts a /\ taken b = taken a
             | Raised _ b => attempts b = attempts a /\ taken b = taken a
             | Unfinished => True
             end).
  { intros a. destruct (tokens PREFS a) as [t b|e b|] eqn:Ht; [| |exact I].
    - destruct (tokens_value PREFS _ _ _ Ht) as (_ & Htr).
      unfold attempts, taken. rewrite Htr. auto.
    - unfold tokens in Ht.
      repeat match type of Ht with
             | context [if ?c then _ else _] => destruct c
             end; inversion Ht; subst; auto. }
  specialize (Hc Htok counts_after_wait fuel (request_interval PREFS)
                (clock w - p_update (params w))%Q w).
  destruct (consume_wait PREFS fuel _ _ w) as [u w1|e w1|];
    [|exact Hc|exact I].
  destruct Hc as [Ha Ht]. unfold attempts, taken, after_take in *.
  cbn [trace]. rewrite !List.filter_app, !List.length_app. simpl. lia.
Qed.

Lemma consume_in_range (fuel : nat) (w : world E) :
  (0 <= request_interval PREFS)%Q ->
  in_range PREFS w ->
  match consume PREFS fuel w with
  | Returned _ w' => in_range PREFS w'
  | Raised _ w' => in_range PREFS w'
  | Unfinished => True
  end.
Proof.
  intros Hi Hr.
  pose proof (run_call_spec PREFS fuel Consume w) as H. simpl in H.
  destruct (consume PREFS fuel w) as [u w'|e w'|]; [| |exact I];
    apply (H w' Hi Hr eq_refl).
Qed.

(** The wrapper keeps the persisted count within [0, request_batch_size]
    for every operation and every outcome. *)
Theorem retry_keeps_tokens_in_range (fuel : nat)
    (target_function : operation E) (args : list value) (w : world E) :
  (0 <= request_interval PREFS)%Q ->
  in_range PREFS w ->
  match retry_on_comicvine_error PREFS fuel target_function args w with
  | Returned _ w' => in_range PREFS w'
  | Raised _ w' => in_range PREFS w'
  | Unfinished => True
  end.
Proof.
  intros Hi. unfold retry_on_comicvine_error.
  generalize (py_range 1 (retries PREFS + 1)) as rs. intros rs. revert w.
  induction rs as [|retry rest IH]; intros w Hr; [exact Hr|].
  rewrite retry_loop_step.
  pose proof (consume_in_range fuel w Hi Hr) as Hc.
  destruct (consume PREFS fuel w) as [u w1|e w1|]; [|exact Hc|exact I].
  cbv zeta.
  destruct (fst (target_function args (remote w1))) as [v|e]; [exact Hc|].
  rewrite handler_unfold.
  destruct (rate_limit_class e || (retries PREFS <=? retry)); [exact Hc|].
  destruct (Qltb _ 0); [exact Hc|].
  apply IH. exact Hc.
Qed.

(** An exception of [consume] is not handled by the wrapper: with a zero
    interval and a bucket that would mint, the call fails with
    [ZeroDivisionError] before the operation is invoked, and nothing has
    changed. *)
Theorem retry_zero_interval_fails_before_call (fuel : nat)
    (target_function : operation E) (args : list value) (w : world E) :
  (request_interval PREFS == 0)%Q ->
  p_tokens (params w) < request_batch_size PREFS ->
  (p_update (params w) < clock w)%Q ->
  1 <= retries PREFS -> (1 <= fuel)%nat ->
  retry_on_comicvine_error PREFS fuel target_function args w
  = Raised (OtherException "ZeroDivisionError" "float division by zero") w.
Proof.
  intros Hz Hlt He Hn Hf. destruct fuel as [|fuel]; [lia|].
  unfold retry_on_comicvine_error.
  rewrite py_range_cons by lia.
  rewrite retry_loop_step, consume_unfold, consume_wait_step.
  unfold tokens.
  apply Z.ltb_lt in Hlt. rewrite Hlt.
  assert (Hpos : Qltb 0 (clock w - p_update (params w)) = true)
    by (apply Qltb_lt; lra).
  rewrite Hpos.
  apply Qeq_bool_iff in Hz. rewrite Hz. reflexivity.
Qed.

Lemma slept_app (l1 l2 : list event) :
  (slept (l1 ++ l2) == slept l1 + slept l2)%Q.
Proof.
  induction l1 as [|ev l1 IH]; simpl; [ring|].
  destruct ev; rewrite ?IH; ring.
Qed.

Lemma slept_waits (d : Q) (k : nat) :
  (slept (repeat (Waited d) k) == inject_Z (Z.of_nat k) * d)%Q.
Proof.
  induction k as [|k IH].
  - simpl. unfold inject_Z. ring.
  - cbn [repeat slept]. rewrite IH, inject_Z_succ_mul. ring.
Qed.

(** The waiting loop on a serviceable bucket: it ends with a token there,
    having only read and slept. *)
Lemma consume_wait_serviceable (fuel : nat) (w : world E) :
  serviceable PREFS w -> (2 <= fuel)%nat ->
  exists (w1 : world E) (l : list event),
    consume_wait PREFS fuel (request_interval PREFS)
      (clock w - p_update (params w))%Q w = Returned tt w1
    /\ in_range PREFS w1
    /\ 1 <= p_tokens (params w1)
    /\ p_tokens (params w) <= p_tokens (params w1)
    /\ trace w1 = trace w ++ l
    /\ steps l = []
    /\ (clock w1 == clock w + slept l)%Q
    /\ entropy w1 = entropy w /\ draws w1 = draws w
    /\ remote w1 = remote w.
Proof.
  intros Hs Hf. pose proof Hs as (Hi & Hb & Hr).
  destruct (consume_wait_terminates PREFS fuel w Hs Hf) as (w1 & Hrun).
  pose proof (consume_wait_spec PREFS fuel (request_interval PREFS)
                (clock w - p_update (params w))%Q w (Qlt_le_weak _ _ Hi))
    as Hsp.
  pose proof (consume_wait_ledger PREFS fuel (request_interval PREFS)
                (clock w - p_update (params w))%Q w) as Hl.
  rewrite Hrun in Hsp, Hl.
  destruct Hsp as (H1 & Hle & Hr1 & _ & Hen & Hdr & Hrem).
  destruct Hl as (_ & k & Hk & Hc).
  exists w1, (repeat (Waited (consume_delay (request_interval PREFS)
                             (clock w - p_update (params w))%Q)) k).
  split; [exact Hrun|]. split; [exact (Hr1 Hr)|]. split; [exact H1|].
  split; [exact Hle|]. split; [exact Hk|]. split; [apply steps_waits|].
  split; [rewrite slept_waits; exact Hc|]. auto.
Qed.

(** A call whose first invocation is decisive: the waiting loop ends with a
    token, the count goes down by one, the operation is invoked once and its
    outcome ends the call. *)
Lemma retry_single_attempt (fuel : nat) (target_function : operation E)
    (args : list value) (w : world E) :
  serviceable PREFS w -> (2 <= fuel)%nat -> 1 <= retries PREFS ->
  decisive (fst (target_function args (remote w))) ->
  exists w1 : world E,
    consume_wait PREFS fuel (request_interval PREFS)
      (clock w - p_update (params w))%Q w = Returned tt w1
    /\ 1 <= p_tokens (params w1)
    /\ attempts w1 = attempts w
    /\ draws w1 = draws w
    /\ retry_on_comicvine_error PREFS fuel target_function args w
       = finish (fst (target_function args (remote w)))
           (after_call 1 (snd (target_function args (remote w)))
              (after_take w1)).
Proof.
  intros Hs Hf Hn Hdec.
  destruct (consume_wait_serviceable fuel w Hs Hf)
    as (w1 & l & Hrun & Hr1 & H1 & Hle & Htr & Hst & Hck & Hen & Hdr & Hrem).
  exists w1. split; [exact Hrun|]. split; [exact H1|].
  split.
  { unfold attempts. rewrite Htr, List.filter_app, List.length_app.
    rewrite <- (filter_called_steps l), Hst. simpl. lia. }
  split; [exact Hdr|].
  unfold retry_on_comicvine_error.
  rewrite py_range_cons by lia.
  rewrite retry_loop_step, consume_unfold, Hrun. cbv zeta.
  cbn [after_take remote]. rewrite Hrem.
  destruct (fst (target_function args (remote w))) as [v|e]; [reflexivity|].
  simpl in Hdec. rewrite handler_unfold, Hdec. reflexivity.
Qed.

(** A call decided at invocation [k + 1]: by a decisive outcome there, or
    because it is the last attempt. Up to there the world develops attempt by
    attempt as [after_attempts] describes, the trace shows [k + 1] attempts,
    and the clock has moved on by exactly the time slept. *)
Lemma retry_loop_run (fuel : nat) (target_function : operation E)
    (args : list value) :
  (2 <= fuel)%nat ->
  forall (k : nat) (a : Z) (w : world E),
    a + Z.of_nat k <= retries PREFS ->
    serviceable PREFS w ->
    (forall i : nat, (i < k)%nat -> (0 <= entropy w (draws w + i)%nat)%Q) ->
    transient_for target_function args k (remote w) ->
    (decisive
       (fst (target_function args
               (remote_after target_function args k (remote w))))
     \/ retries PREFS <= a + Z.of_nat k) ->
    exists (w' : world E) (new : list event),
      retry_loop PREFS fuel target_function args
        (py_range a (retries PREFS + 1)) w
      = finish
          (fst (target_function args
                  (remote_after target_function args k (remote w)))) w'
      /\ after_attempts PREFS fuel target_function args a (S k) w = Some w'
      /\ trace w' = trace w ++ new
      /\ steps new = attempt_steps (entropy w) (draws w) a (S k)
      /\ (clock w' == clock w + slept new)%Q
      /\ remote w' = remote_after target_function args (S k) (remote w)
      /\ draws w' = (draws w + k)%nat
      /\ 0 <= p_tokens (params w') < request_batch_size PREFS
      /\ p_tokens (params w) - Z.of_nat (S k) <= p_tokens (params w').
Proof.
  intros Hf k. induction k as [|k IH]; intros a w Ha Hs Hu Htr Hend.
  - destruct (consume_wait_serviceable fuel w Hs Hf)
      as (w1 & l & Hrun & Hr1 & H1 & Hle & Ht1 & Hst & Hck & Hen & Hdr & Hrem).
    cbn [remote_after] in *.
    exists (after_call a (snd (target_function args (remote w)))
              (after_take w1)).
    exists (l ++ [Took; Called a]).
    split.
    { rewrite py_range_cons by lia.
      rewrite retry_loop_step, consume_unfold, Hrun. cbv zeta.
      cbn [after_take remote]. rewrite Hrem.
      destruct (fst (target_function args (remote w))) as [v|e];
        [reflexivity|].
      rewrite handler_unfold.
      assert (Hstop : rate_limit_class e || (retries PREFS <=? a) = true).
      { destruct Hend as [Hd|Hlast].
        - simpl in Hd. rewrite Hd. reflexivity.
        - apply orb_true_iff. right. apply Z.leb_le. lia. }
      rewrite Hstop. reflexivity. }
    split.
    { cbn [after_attempts]. rewrite Hrun, Hrem. reflexivity. }
    unfold after_call, after_take.
    cbn [trace clock remote draws params p_tokens].
    split; [rewrite Ht1, <- !app_assoc; reflexivity|].
    split; [rewrite steps_app, Hst; reflexivity|].
    split; [rewrite slept_app, Hck; simpl; ring|].
    split; [reflexivity|]. split; [lia|].
    unfold in_range in Hr1. lia.
  - destruct (consume_wait_serviceable fuel w Hs Hf)
      as (w1 & l & Hrun & Hr1 & H1 & Hle & Ht1 & Hst & Hck & Hen & Hdr & Hrem).
    pose proof (Htr O ltac:(lia)) as H0. cbn [remote_after] in H0.
    destruct (fst (target_function args (remote w))) as [v|e] eqn:Hfst;
      [contradiction|].
    set (w2 := after_call a (snd (target_function args (remote w)))
                 (after_take w1)).
    assert (Hd : Qltb (entropy w2 (draws w2) / 2 + (1 # 10)) 0 = false).
    { apply Qltb_ge. subst w2. cbn [after_call after_take entropy draws].
      rewrite Hen, Hdr. specialize (Hu O ltac:(lia)).
      rewrite Nat.add_0_r in Hu.
      assert (0 <= entropy w (draws w) / 2)%Q
        by (apply Qle_shift_div_l; [reflexivity|lra]).
      lra. }
    destruct (IH (a + 1) (after_jitter w2))
      as (w' & new & Hloop & Hatt & Htr' & Hst' & Hck' & Hrem' & Hdr' & Hrg & Hlow).
    + lia.
    + destruct Hs as (Hi & Hb & _). split; [exact Hi|]. split; [exact Hb|].
      unfold in_range in *. subst w2.
      cbn [after_jitter after_call after_take params p_tokens]. lia.
    + intros i Hi. subst w2.
      cbn [after_jitter after_call after_take entropy draws].
      rewrite Hen, Hdr. specialize (Hu (S i) ltac:(lia)).
      replace (S (draws w) + i)%nat with (draws w + S i)%nat by lia.
      exact Hu.
    + intros i Hi. specialize (Htr (S i) ltac:(lia)).
      subst w2. cbn [after_jitter after_call remote]. exact Htr.
    + subst w2. cbn [after_jitter after_call remote].
      destruct Hend as [Hdec|Hlast]; [left; exact Hdec|right; lia].
    + exists w'.
      exists (l ++ [Took; Called a;
                    Jittered (entropy w (draws w) / 2 + (1 # 10))%Q] ++ new).
      split.
      { rewrite py_range_cons by lia.
        rewrite retry_loop_step, consume_unfold, Hrun. cbv zeta.
        cbn [after_take remote]. rewrite Hrem, Hfst. fold w2.
        rewrite handler_unfold, H0.
        assert (Hlast : (retries PREFS <=? a) = false)
          by (apply Z.leb_gt; lia).
        rewrite Hlast. cbn [orb]. rewrite Hd.
        subst w2. cbn [after_jitter after_call remote] in Hloop.
        exact Hloop. }
      split.
      { cbn [after_attempts]. rewrite Hrun, Hrem. fold w2. exact Hatt. }
      subst w2.
      cbn [after_jitter after_call after_take trace clock remote draws
             entropy params p_tokens remote_after] in *.
      rewrite Hen, Hdr in *.
      split; [rewrite Htr', Ht1, <- !app_assoc; reflexivity|].
      split.
      { rewrite steps_app, Hst.
        change (steps ([Took; Called a; Jittered _] ++ new))
          with (Took :: Called a
                  :: Jittered (entropy w (draws w) / 2 + (1 # 10))%Q
                  :: steps new).
        rewrite Hst'. reflexivity. }
      split.
      { rewrite Hck', Hck, !slept_app. simpl. ring. }
      split; [exact Hrem'|]. split; [lia|]. split; [exact Hrg|]. lia.
Qed.

(** C2 (as amended). With at least one attempt configured, if the wrapped
    operation raises the quota-exceeded error or an HTTP error with status
    420 on attempt 1, the wrapper makes exactly one attempt: the waiting loop
    of [consume()] ends with a token, the persisted count goes down by one,
    the operation is invoked once, and that very error is raised without a
    sleep and without a draw of the random source. The bucket is assumed
    serviceable, so that the token is eventually granted. *)
Theorem C2_rate_limit_error_is_not_retried (fuel : nat)
    (target_function : operation E) (args : list value) (w : world E)
    (e : exn) :
  serviceable PREFS w -> (2 <= fuel)%nat ->
  1 <= retries PREFS ->
  fst (target_function args (remote w)) = Raise e ->
  rate_limit_class e = true ->
  exists w1 w' : world E,
    consume_wait PREFS fuel (request_interval PREFS)
      (clock w - p_update (params w))%Q w = Returned tt w1
    /\ retry_on_comicvine_error PREFS fuel target_function args w
       = Raised e w'
    /\ 1 <= p_tokens (params w1)
    /\ p_tokens (params w') = p_tokens (params w1) - 1
    /\ p_update (params w') = p_update (params w1)
    /\ clock w' = clock w1
    /\ trace w' = trace w1 ++ [Took; Called 1]
    /\ attempts w' = attempts w + 1
    /\ draws w' = draws w
    /\ remote w' = snd (target_function args (remote w)).
Proof.
  intros Hs Hf Hn He Hc.
  destruct (retry_single_attempt fuel target_function args w Hs Hf Hn)
    as (w1 & Hrun & H1 & Ha & Hdr & Hret).
  { rewrite He. exact Hc. }
  rewrite He in Hret.
  exists w1, (after_call 1 (snd (target_function args (remote w)))
                (after_take w1)).
  split; [exact Hrun|]. split; [exact Hret|]. split; [exact H1|].
  unfold attempts, after_call, after_take in *.
  cbn [params p_tokens p_update clock trace draws remote].
  rewrite <- !app_assoc, !List.filter_app, !List.length_app. simpl.
  repeat split; try lia; try exact Hdr.
Qed.

(** C3. With [retries] = N >= 1, if the N invocations the call makes one
    after the other all raise an exception outside the rate-limit class, the
    wrapper invokes the operation exactly N times and raises the exception
    of the N-th invocation itself. Attempt by attempt the world develops as
    [after_attempts] says: before each invocation the waiting loop of
    [consume()] runs until a token is there and the persisted count goes down
    by one; after each attempt but the last the clock moves on by
    [random.random() / 2 + 0.1], a delay in [0.1, 0.6). The clock has moved
    on by exactly the time slept, the count has dropped by at most N and is
    below the batch size. The bucket is assumed serviceable and
    [random.random()] to return values in [0, 1). *)
Theorem C3_transient_errors_exhaust_retries (fuel : nat)
    (target_function : operation E) (args : list value) (w : world E) :
  serviceable PREFS w -> unit_entropy w -> (2 <= fuel)%nat ->
  1 <= retries PREFS ->
  transient_for target_function args (Z.to_nat (retries PREFS)) (remote w) ->
  exists (e : exn) (w' : world E) (new : list event),
    retry_on_comicvine_error PREFS fuel target_function args w = Raised e w'
    /\ fst (target_function args
              (remote_after target_function args
                 (Z.to_nat (retries PREFS) - 1) (remote w))) = Raise e
    /\ after_attempts PREFS fuel target_function args 1
         (Z.to_nat (retries PREFS)) w = Some w'
    /\ trace w' = trace w ++ new
    /\ steps new
       = attempt_steps (entropy w) (draws w) 1 (Z.to_nat (retries PREFS))
    /\ Forall short_jitter new
    /\ (clock w' == clock w + slept new)%Q
    /\ attempts w' = attempts w + retries PREFS
    /\ taken w' = taken w + retries PREFS
    /\ 0 <= p_tokens (params w') < request_batch_size PREFS
    /\ p_tokens (params w) - retries PREFS <= p_tokens (params w').
Proof.
  intros Hs Hu Hf Hn Hall.
  set (N := Z.to_nat (retries PREFS)) in *.
  assert (HN : S (N - 1) = N) by lia.
  pose proof (Hall (N - 1)%nat ltac:(lia)) as Hlast.
  destruct (fst (target_function args
                   (remote_after target_function args (N - 1) (remote w))))
    as [v|e] eqn:Hfst; [contradiction|].
  destruct (retry_loop_run fuel target_function args Hf (N - 1) 1 w)
    as (w' & new & Hrun & Hatt & Htr & Hst & Hck & Hrem & Hdr & Hrg & Hlow).
  - lia.
  - exact Hs.
  - intros i _. apply Hu.
  - intros i Hi. apply Hall. lia.
  - right. lia.
  - rewrite Hfst in Hrun. rewrite HN in *.
    exists e, w', new.
    split; [exact Hrun|]. split; [reflexivity|]. split; [exact Hatt|].
    split; [exact Htr|]. split; [exact Hst|].
    split; [apply short_jitter_steps; rewrite Hst;
            apply attempt_steps_short; exact Hu|].
    split; [exact Hck|].
    rewrite (attempts_app w w' new Htr), (taken_app w w' new Htr), Hst.
    rewrite attempt_steps_called, attempt_steps_took.
    split; [lia|]. split; [lia|]. split; [exact Hrg|]. lia.
Qed.

Lemma consume_drop (fuel : nat) (w : world E) :
  (0 <= request_interval PREFS)%Q ->
  match consume PREFS fuel w with
  | Returned _ w' => p_tokens (params w) - 1 <= p_tokens (params w')
  | Raised _ w' => p_tokens (params w) <= p_tokens (params w')
  | Unfinished => True
  end.
Proof.
  intros Hi. pose proof (consume_spec PREFS fuel w Hi) as H. simpl in H.
  destruct (consume PREFS fuel w) as [u w'|e w'|]; [| |exact I].
  - destruct H as (w1 & (Hle & _) & _ & Ht).
    destruct (take_one_spec w1) as (w2 & Ht' & Hp & _).
    rewrite Ht in Ht'. inversion Ht'; subst w2. lia.
  - destruct H as (Hle & _). exact Hle.
Qed.

Lemma retry_loop_bounds (fuel : nat) (target_function : operation E)
    (args : list value) (rs : list Z) :
  forall w : world E,
    match retry_loop PREFS fuel target_function args rs w with
    | Returned _ w' =>
        exists k : Z,
          0 <= k <= Z.of_nat (length rs)
          /\ attempts w' = attempts w + k
          /\ ((0 <= request_interval PREFS)%Q ->
              p_tokens (params w) - k <= p_tokens (params w'))
    | Raised _ w' =>
        exists k : Z,
          0 <= k <= Z.of_nat (length rs)
          /\ attempts w' = attempts w + k
          /\ ((0 <= request_interval PREFS)%Q ->
              p_tokens (params w) - k <= p_tokens (params w'))
    | Unfinished => True
    end.
Proof.
  induction rs as [|retry rest IH]; intros w.
  - simpl. exists 0. split; [lia|]. split; [lia|]. intros _. lia.
  - rewrite retry_loop_step.
    pose proof (consume_counts fuel w) as Hc.
    pose proof (consume_drop fuel w) as Hd.
    destruct (consume PREFS fuel w) as [u w1|e w1|]; [| |exact I].
    + destruct Hc as [Ha _]. cbv zeta.
      set (w2 := after_call retry _ w1).
      assert (Hw2 : attempts w2 = attempts w + 1
                    /\ p_tokens (params w2) = p_tokens (params w1)).
      { subst w2. unfold attempts, after_call in *. cbn [trace params].
        rewrite List.filter_app, List.length_app. simpl. lia. }
      destruct Hw2 as [Ha2 Hp2].
      destruct (fst (target_function args (remote w1))) as [v|e].
      * exists 1. cbn [length]. split; [lia|]. split; [lia|]. intros Hi.
        specialize (Hd Hi). lia.
      * rewrite handler_unfold.
        destruct (rate_limit_class e || (retries PREFS <=? retry)).
        { exists 1. cbn [length]. split; [lia|]. split; [lia|]. intros Hi.
          specialize (Hd Hi). lia. }
        destruct (Qltb _ 0).
        { exists 1. cbn [length]. unfold attempts in *. cbn [trace params].
          split; [lia|]. split; [lia|]. intros Hi. specialize (Hd Hi). lia. }
        specialize (IH (after_jitter w2)).
        assert (Hj : attempts (after_jitter w2) = attempts w2
                     /\ p_tokens (params (after_jitter w2))
                        = p_tokens (params w2)).
        { unfold attempts, after_jitter. cbn [trace params].
          rewrite List.filter_app. simpl. rewrite app_nil_r. auto. }
        destruct Hj as [Haj Hpj].
        destruct (retry_loop PREFS fuel target_function args rest _)
          as [v w3|e3 w3|]; [| |exact I];
          destruct IH as (k & Hk & Hka & Hkp);
          exists (k + 1); cbn [length];
          (split; [lia|]; split; [lia|]; intros Hi;
           specialize (Hd Hi); specialize (Hkp Hi); lia).
    + destruct Hc as [Ha _]. exists 0. cbn [length].
      split; [lia|]. split; [lia|]. intros Hi. specialize (Hd Hi). lia.
Qed.

(** Whatever the operation does and whatever the settings are, the wrapper
    invokes it at most [retries] times; and with a non-negative interval the
    persisted token count is lower than before the call by at most the number
    of invocations. *)
Theorem retry_attempts_bounded (fuel : nat) (target_function : operation E)
    (args : list value) (w : world E) :
  match retry_on_comicvine_error PREFS fuel target_function args w with
  | Returned _ w' =>
      attempts w <= attempts w' <= attempts w + Z.max 0 (retries PREFS)
      /\ ((0 <= request_interval PREFS)%Q ->
          p_tokens (params w) - (attempts w' - attempts w)
          <= p_tokens (params w'))
  | Raised _ w' =>
      attempts w <= attempts w' <= attempts w + Z.max 0 (retries PREFS)
      /\ ((0 <= request_interval PREFS)%Q ->
          p_tokens (params w) - (attempts w' - attempts w)
          <= p_tokens (params w'))
  | Unfinished => True
  end.
Proof.
  unfold retry_on_comicvine_error.
  pose proof (retry_loop_bounds fuel target_function args
                (py_range 1 (retries PREFS + 1)) w) as H.
  assert (Hlen : Z.of_nat (length (py_range 1 (retries PREFS + 1)))
                 = Z.max 0 (retries PREFS)).
  { unfold py_range. rewrite length_map, length_seq. lia. }
  rewrite Hlen in H.
  destruct (retry_loop PREFS fuel target_function args _ w)
    as [v w'|e w'|]; [| |exact I];
    destruct H as (k & Hk & Ha & Hp);
    (split; [lia|]; intros Hi; specialize (Hp Hi); lia).
Qed.

(** If the first [k] invocations fail with transient errors and the next
    one returns, with [k] below [retries], the wrapper returns that value
    after exactly [k + 1] invocations. Attempt by attempt the world develops
    as [after_attempts] says: before each invocation the waiting loop ends
    with a token and the persisted count goes down by one, between two
    attempts the clock moves on by [random.random() / 2 + 0.1]; the clock has
    moved on by exactly the time slept. *)
Theorem retry_returns_after_transient_failures (fuel : nat)
    (target_function : operation E) (args : list value) (w : world E)
    (k : nat) (v : value) :
  serviceable PREFS w -> unit_entropy w -> (2 <= fuel)%nat ->
  Z.of_nat k < retries PREFS ->
  transient_for target_function args k (remote w) ->
  fst (target_function args
         (remote_after target_function args k (remote w))) = Return v ->
  exists (w' : world E) (new : list event),
    retry_on_comicvine_error PREFS fuel target_function args w
    = Returned v w'
    /\ after_attempts PREFS fuel target_function args 1 (S k) w = Some w'
    /\ trace w' = trace w ++ new
    /\ steps new = attempt_steps (entropy w) (draws w) 1 (S k)
    /\ (clock w' == clock w + slept new)%Q
    /\ attempts w' = attempts w + Z.of_nat k + 1
    /\ 0 <= p_tokens (params w') < request_batch_size PREFS
    /\ p_tokens (params w) - (Z.of_nat k + 1) <= p_tokens (params w')
    /\ remote w' = remote_after target_function args (S k) (remote w).
Proof.
  intros Hs Hu Hf Hk Htr Hret.
  destruct (retry_loop_run fuel target_function args Hf k 1 w)
    as (w' & new & Hrun & Hatt & Htrace & Hst & Hck & Hrem & Hdr & Hrg & Hlow).
  - lia.
  - exact Hs.
  - intros i _. apply Hu.
  - exact Htr.
  - left. rewrite Hret. exact I.
  - rewrite Hret in Hrun. exists w', new.
    split; [exact Hrun|]. split; [exact Hatt|]. split; [exact Htrace|].
    split; [exact Hst|]. split; [exact Hck|].
    rewrite (attempts_app w w' new Htrace), Hst, attempt_steps_called.
    split; [lia|]. split; [exact Hrg|]. split; [lia|exact Hrem].
Qed.

(** If the first [k] invocations fail with transient errors and the next
    one is refused with a rate-limit error, the wrapper raises that error at
    once: [k + 1] invocations in all, however many attempts remain, with
    [k] sleeps of [random.random() / 2 + 0.1] in between by which the clock
    has really moved on, and a token taken before each invocation as
    [after_attempts] says. *)
Theorem retry_stops_at_first_rate_limit (fuel : nat)
    (target_function : operation E) (args : list value) (w : world E)
    (k : nat) (e : exn) :
  serviceable PREFS w -> unit_entropy w -> (2 <= fuel)%nat ->
  Z.of_nat k < retries PREFS ->
  transient_for target_function args k (remote w) ->
  fst (target_function args
         (remote_after target_function args k (remote w))) = Raise e ->
  rate_limit_class e = true ->
  exists (w' : world E) (new : list event),
    retry_on_comicvine_error PREFS fuel target_function args w = Raised e w'
    /\ after_attempts PREFS fuel target_function args 1 (S k) w = Some w'
    /\ trace w' = trace w ++ new
    /\ steps new = attempt_steps (entropy w) (draws w) 1 (S k)
    /\ (clock w' == clock w + slept new)%Q
    /\ attempts w' = attempts w + Z.of_nat k + 1
    /\ draws w' = (draws w + k)%nat
    /\ 0 <= p_tokens (params w') < request_batch_size PREFS
    /\ p_tokens (params w) - (Z.of_nat k + 1) <= p_tokens (params w').
Proof.
  intros Hs Hu Hf Hk Htr Hret Hc.
  destruct (retry_loop_run fuel target_function args Hf k 1 w)
    as (w' & new & Hrun & Hatt & Htrace & Hst & Hck & Hrem & Hdr & Hrg & Hlow).
  - lia.
  - exact Hs.
  - intros i _. apply Hu.
  - exact Htr.
  - left. rewrite Hret. exact Hc.
  - rewrite Hret in Hrun. exists w', new.
    split; [exact Hrun|]. split; [exact Hatt|]. split; [exact Htrace|].
    split; [exact Hst|]. split; [exact Hck|].
    rewrite (attempts_app w w' new Htrace), Hst, attempt_steps_called.
    split; [lia|]. split; [exact Hdr|]. split; [exact Hrg|]. lia.
Qed.

End RetryMore.

(** * The methods of the wrapper behind their decorators *)

Section WrapperFacts.

Context {E : Type}.
Variable PREFS : prefs.

Lemma lookup_issue_image_urls_eq (fetch : Z -> option issue) (issue_id : Z)
    (b : bool) :
  lookup_issue_image_urls fetch issue_id b
  = if b then take 1 (issue_urls fetch issue_id)
    else issue_urls fetch issue_id.
Proof.
  unfold lookup_issue_image_urls, issue_urls.
  destruct (fetch issue_id) as [[[d|]]|]; simpl;
    [|destruct b; reflexivity|destruct b; reflexivity].
  case_bool_decide as Hd; simpl.
  - subst d. rewrite available_urls_empty. destruct b; reflexivity.
  - destruct b; [apply collect_urls_best|apply collect_urls_all].
Qed.

(** A call whose first invocation returns: the waiting loop ends with a
    token, the token is taken, the operation is invoked once. *)
Lemma retry_decided (fuel : nat) (target_function : operation E)
    (args : list value) (w : world E) (v : value) (r' : E) :
  serviceable PREFS w -> (2 <= fuel)%nat -> 1 <= retries PREFS ->
  target_function args (remote w) = (Return v, r') ->
  exists w1 w' : world E,
    consume_wait PREFS fuel (request_interval PREFS)
      (clock w - p_update (params w))%Q w = Returned tt w1
    /\ retry_on_comicvine_error PREFS fuel target_function args w
       = Returned v w'
    /\ 1 <= p_tokens (params w1)
    /\ p_tokens (params w') = p_tokens (params w1) - 1
    /\ p_update (params w') = p_update (params w1)
    /\ clock w' = clock w1
    /\ trace w' = trace w1 ++ [Took; Called 1]
    /\ attempts w' = attempts w + 1
    /\ remote w' = r'.
Proof.
  intros Hs Hf Hn Hbody.
  destruct (retry_single_attempt PREFS fuel target_function args w Hs Hf Hn)
    as (w1 & Hrun & H1 & Ha & Hdr & Hret).
  { rewrite Hbody. exact I. }
  rewrite Hbody in Hret. cbn [fst snd finish] in Hret.
  exists w1, (after_call 1 r' (after_take w1)).
  split; [exact Hrun|]. split; [exact Hret|]. split; [exact H1|].
  unfold attempts, after_call, after_take in *.
  cbn [params p_tokens p_update clock trace draws remote].
  rewrite <- !app_assoc, !List.filter_app, !List.length_app. simpl.
  repeat split; lia.
Qed.

(** [search_for_authors] with no tokens, or with the single token
    ['Unknown'], sends nothing to the catalog, whatever the catalog would
    have answered, and returns the empty list; behind the retry decorator the
    call still waits for a token and takes it: the persisted count is one
    below what the waiting loop left. *)
Theorem search_for_authors_short_circuit
    (People : string -> E -> outcome value * E) (fuel : nat)
    (author_tokens : list string) (args : list value) (w : world E) :
  serviceable PREFS w -> (2 <= fuel)%nat -> 1 <= retries PREFS ->
  author_tokens = [] \/ author_tokens = ["Unknown"] ->
  exists w1 w' : world E,
    consume_wait PREFS fuel (request_interval PREFS)
      (clock w - p_update (params w))%Q w = Returned tt w1
    /\ retry_on_comicvine_error PREFS fuel
         (search_for_authors People author_tokens) args w
       = Returned (VList []) w'
    /\ 1 <= p_tokens (params w1)
    /\ p_tokens (params w') = p_tokens (params w1) - 1
    /\ p_update (params w') = p_update (params w1)
    /\ clock w' = clock w1
    /\ trace w' = trace w1 ++ [Took; Called 1]
    /\ attempts w' = attempts w + 1
    /\ remote w' = remote w.
Proof.
  intros Hs Hf Hn Hshort.
  apply retry_decided; try assumption.
  unfold search_for_authors. destruct Hshort as [-> | ->]; reflexivity.
Qed.

(** [lookup_issue_image_urls] behind both decorators, without a cache
    directory: when the catalog answers, the caller gets the URLs the issue
    offers in quality order (only the best one when asked so, none for an
    absent issue or image) after a single request, for which the call waited
    for a token and took it: the persisted count is one below what the
    waiting loop left. *)
Theorem lookup_issue_image_urls_decorated
    (FSCache : string -> method E -> method E)
    (Issue : Z -> E -> outcome (option issue) * E)
    (fuel : nat) (issue_id : Z) (get_best_cover : bool)
    (args : list value) (w : world E) (found : option issue) (r' : E) :
  serviceable PREFS w -> (2 <= fuel)%nat -> 1 <= retries PREFS ->
  Issue issue_id (remote w) = (Return found, r') ->
  exists w1 w' : world E,
    consume_wait PREFS fuel (request_interval PREFS)
      (clock w - p_update (params w))%Q w = Returned tt w1
    /\ cache_comicvine FSCache None "lookup_issue_image_urls"
         (retry_on_comicvine_error PREFS fuel
            (lookup_issue_image_urls_op Issue issue_id get_best_cover))
         args w
       = Returned
           (VList
              (map VStr
                 (if get_best_cover
                  then take 1 (issue_urls (fun _ => found) issue_id)
                  else issue_urls (fun _ => found) issue_id))) w'
    /\ 1 <= p_tokens (params w1)
    /\ p_tokens (params w') = p_tokens (params w1) - 1
    /\ p_update (params w') = p_update (params w1)
    /\ clock w' = clock w1
    /\ trace w' = trace w1 ++ [Took; Called 1]
    /\ attempts w' = attempts w + 1
    /\ remote w' = r'.
Proof.
  intros Hs Hf Hn Hissue. cbn [cache_comicvine].
  apply retry_decided; try assumption.
  unfold lookup_issue_image_urls_op. rewrite Hissue.
  rewrite lookup_issue_image_urls_eq. reflexivity.
Qed.

(** [lookup_volume_id] behind both decorators, without a cache directory:
    an answer of the catalog, found or not, ends the call after one request,
    for which the call waited for a token and took it; a volume that is not
    there comes back as [None], not as an error, and is not asked for
    again. *)
Theorem lookup_volume_id_decorated
    (FSCache : string -> method E -> method E)
    (Volume : Z -> E -> outcome (option Z) * E)
    (fuel : nat) (volume_id : Z) (args : list value) (w : world E)
    (found : option Z) (r' : E) :
  serviceable PREFS w -> (2 <= fuel)%nat -> 1 <= retries PREFS ->
  Volume volume_id (remote w) = (Return found, r') ->
  exists w1 w' : world E,
    consume_wait PREFS fuel (request_interval PREFS)
      (clock w - p_update (params w))%Q w = Returned tt w1
    /\ cache_comicvine FSCache None "lookup_volume_id"
         (retry_on_comicvine_error PREFS fuel
            (lookup_volume_id Volume volume_id)) args w
       = Returned (match found with Some id => VInt id | None => VNone end)
           w'
    /\ 1 <= p_tokens (params w1)
    /\ p_tokens (params w') = p_tokens (params w1) - 1
    /\ p_update (params w') = p_update (params w1)
    /\ clock w' = clock w1
    /\ trace w' = trace w1 ++ [Took; Called 1]
    /\ attempts w' = attempts w + 1
    /\ remote w' = r'.
Proof.
  intros Hs Hf Hn Hvol. cbn [cache_comicvine].
  apply retry_decided; try assumption.
  unfold lookup_volume_id. rewrite Hvol. destruct found; reflexivity.
Qed.

End WrapperFacts.

(** * The query strings *)

Section JoinFacts.

Import Ranking.

Lemma prefix_app (p s : string) : String.prefix p (p +:+ s) = true.
Proof.
  induction p as [|c p IH]; simpl.
  - destruct s; reflexivity.
  - destruct (Ascii.ascii_dec c c) as [_|Hne]; [exact IH|congruence].
Qed.

Lemma contains_of_prefix (h p : string) :
  String.prefix p h = true -> contains h p = true.
Proof. intros H. destruct h; cbn [contains]; rewrite H; reflexivity. Qed.

Lemma contains_head (p s : string) : contains (p +:+ s) p = true.
Proof. apply contains_of_prefix, prefix_app. Qed.

Lemma contains_self (p : string) : contains p p = true.
Proof.
  apply contains_of_prefix.
  induction p as [|c p IH]; simpl; [reflexivity|].
  destruct (Ascii.ascii_dec c c) as [_|Hne]; [exact IH|congruence].
Qed.

Lemma contains_app_r (a b p : string) :
  contains b p = true -> contains (a +:+ b) p = true.
Proof.
  intros H. induction a as [|c a IH]; [exact H|].
  change (String c a +:+ b)%string with (String c (a +:+ b)).
  cbn [contains].
  destruct (String.prefix p (String c (a +:+ b))); [reflexivity|exact IH].
Qed.

(** Every part is still to be found in the joined string: the filter
    string of [search_for_issue_ids] and [search_for_authors] and the query
    of [search_for_volume_ids] lose none of their tokens. *)
Theorem py_join_keeps_every_part (sep part : string) (parts : list string) :
  In part parts -> contains (py_join sep parts) part = true.
Proof.
  induction parts as [|x rest IH]; intros Hin; [contradiction|].
  destruct rest as [|y rest].
  - destruct Hin as [->|[]]. apply contains_self.
  - change (py_join sep (x :: y :: rest))
      with (x +:+ sep +:+ py_join sep (y :: rest))%string.
    destruct Hin as [->|Hin].
    + apply contains_head.
    + apply contains_app_r, contains_app_r, IH. exact Hin.
Qed.

End JoinFacts.

(** * Sample runs *)

Lemma update_never_decreases_witness :
  exists w' : world nat,
    run_calls sample_prefs 2 [Consume; TimePasses (-20); ReadTokens; Consume]
      sample_world_nat = Some w'
    /\ (p_update (params sample_world_nat) <= p_update (params w'))%Q.
Proof.
  eexists. split; [vm_compute; reflexivity|].
  apply (update_never_decreases sample_prefs 2
           [Consume; TimePasses (-20); ReadTokens; Consume] sample_world_nat).
  vm_compute. reflexivity.
Defined.

Lemma tokens_read_idempotent_witness :
  tokens sample_prefs
    (set_params {| p_tokens := 1; p_update := 25 |} sample_world_idle)
  = Returned 1
      (set_params {| p_tokens := 1; p_update := 25 |} sample_world_idle).
Proof.
  apply (tokens_read_idempotent sample_prefs sample_world_idle).
  vm_compute. reflexivity.
Defined.

Lemma consume_banked_token_no_wait_witness :
  exists w' : world nat,
    consume sample_prefs 1 sample_world_banked = Returned tt w'
    /\ trace w' = trace sample_world_banked ++ [Took]
    /\ clock w' = clock sample_world_banked
    /\ p_tokens (params sample_world_banked) - 1 <= p_tokens (params w').
Proof.
  apply (consume_banked_token_no_wait sample_prefs 1 sample_world_banked).
  - reflexivity.
  - simpl. lia.
  - lia.
Defined.

Lemma consume_never_returns_without_room_witness :
  consume no_room_prefs 1000 sample_world_nat = Unfinished.
Proof.
  apply (consume_never_returns_without_room no_room_prefs 1000
           sample_world_nat).
  - simpl. discriminate.
  - simpl. lia.
  - simpl. lia.
Defined.

Lemma retry_keeps_tokens_in_range_witness :
  match retry_on_comicvine_error sample_prefs 2 third_time_lucky []
          sample_world_nat with
  | Returned _ w' => in_range sample_prefs w'
  | Raised _ w' => in_range sample_prefs w'
  | Unfinished => True
  end.
Proof.
  apply (retry_keeps_tokens_in_range sample_prefs 2 third_time_lucky []
           sample_world_nat).
  - simpl. discriminate.
  - unfold in_range. simpl. lia.
Defined.

Lemma retry_zero_interval_fails_before_call_witness :
  retry_on_comicvine_error zero_interval_prefs 1 always_timeout []
    sample_world_nat
  = Raised (OtherException "ZeroDivisionError" "float division by zero")
      sample_world_nat.
Proof.
  apply (retry_zero_interval_fails_before_call zero_interval_prefs 1
           always_timeout [] sample_world_nat).
  - reflexivity.
  - simpl. lia.
  - reflexivity.
  - simpl. lia.
  - lia.
Defined.

Lemma py_join_keeps_every_part_witness :
  Ranking.contains (py_join " AND " ["dogville"; "awakening"]) "awakening"
  = true.
Proof.
  apply (py_join_keeps_every_part " AND " "awakening"
           ["dogville"; "awakening"]).
  simpl. auto.
Defined.

(** C2, the sentence as written: HTTP status 429, "Too Many Requests", is
    not in the class the code re-raises at once. An operation that answers
    429 on every invocation is invoked [retries] = 3 times, not once. *)
Lemma C2_status_429_is_retried :
  fst (always_http 429 [] (remote sample_world_nat))
  = Raise (HTTPError 429 "error")
  /\ attempts sample_world_nat = 0
  /\ match retry_on_comicvine_error sample_prefs 2 (always_http 429) []
             sample_world_nat with
     | Raised e w' =>
         e = HTTPError 429 "error" /\ attempts w' = 3 /\ remote w' = 3%nat
     | _ => False
     end.
Proof.
  split; [reflexivity|]. split; [reflexivity|].
  vm_compute. repeat split.
Qed.

Lemma C2_witness :
  exists w1 w' : world nat,
    consume_wait sample_prefs 2 (request_interval sample_prefs)
      (clock sample_world_nat - p_update (params sample_world_nat))%Q
      sample_world_nat = Returned tt w1
    /\ retry_on_comicvine_error sample_prefs 2 quota_exceeded []
         sample_world_nat
       = Raised (RateLimitExceededError "quota") w'
    /\ 1 <= p_tokens (params w1)
    /\ p_tokens (params w') = p_tokens (params w1) - 1
    /\ p_update (params w') = p_update (params w1)
    /\ clock w' = clock w1
    /\ trace w' = trace w1 ++ [Took; Called 1]
    /\ attempts w' = attempts sample_world_nat + 1
    /\ draws w' = draws sample_world_nat
    /\ remote w' = snd (quota_exceeded [] (remote sample_world_nat)).
Proof.
  apply (C2_rate_limit_error_is_not_retried sample_prefs 2 quota_exceeded
           [] sample_world_nat (RateLimitExceededError "quota")).
  - exact sample_world_serviceable.
  - lia.
  - simpl. lia.
  - reflexivity.
  - reflexivity.
Defined.

Lemma C3_witness :
  exists (e : exn) (w' : world nat) (new : list event),
    retry_on_comicvine_error sample_prefs 2 always_timeout [] sample_world_nat
    = Raised e w'
    /\ fst (always_timeout []
              (remote_after always_timeout []
                 (Z.to_nat (retries sample_prefs) - 1)
                 (remote sample_world_nat))) = Raise e
    /\ after_attempts sample_prefs 2 always_timeout [] 1
         (Z.to_nat (retries sample_prefs)) sample_world_nat = Some w'
    /\ trace w' = trace sample_world_nat ++ new
    /\ steps new
       = attempt_steps (entropy sample_world_nat) (draws sample_world_nat) 1
           (Z.to_nat (retries sample_prefs))
    /\ Forall short_jitter new
    /\ (clock w' == clock sample_world_nat + slept new)%Q
    /\ attempts w' = attempts sample_world_nat + retries sample_prefs
    /\ taken w' = taken sample_world_nat + retries sample_prefs
    /\ 0 <= p_tokens (params w') < request_batch_size sample_prefs
    /\ p_tokens (params sample_world_nat) - retries sample_prefs
       <= p_tokens (params w').
Proof.
  apply (C3_transient_errors_exhaust_retries sample_prefs 2 always_timeout []
           sample_world_nat).
  - exact sample_world_serviceable.
  - exact sample_world_entropy.
  - lia.
  - simpl. lia.
  - intros i Hi. reflexivity.
Defined.

Lemma retry_attempts_bounded_witness :
  exists w' : world nat,
    retry_on_comicvine_error sample_prefs 2 always_timeout [] sample_world_nat
    = Raised (OtherException "timeout" "timed out") w'
    /\ attempts sample_world_nat <= attempts w'
       <= attempts sample_world_nat + Z.max 0 (retries sample_prefs)
    /\ p_tokens (params sample_world_nat)
       - (attempts w' - attempts sample_world_nat)
       <= p_tokens (params w').
Proof.
  pose proof (retry_attempts_bounded sample_prefs 2 always_timeout []
                sample_world_nat) as H.
  remember (retry_on_comicvine_error sample_prefs 2 always_timeout []
              sample_world_nat) as res eqn:Hres.
  vm_compute in Hres. subst res. cbv iota beta in H.
  destruct H as [Hb Hp].
  eexists. split; [reflexivity|]. split; [exact Hb|].
  apply Hp. vm_compute. discriminate.
Defined.

Lemma retry_returns_after_transient_failures_witness :
  exists (w' : world nat) (new : list event),
    retry_on_comicvine_error sample_prefs 2 third_time_lucky []
      sample_world_nat
    = Returned (VInt 42) w'
    /\ after_attempts sample_prefs 2 third_time_lucky [] 1 3 sample_world_nat
       = Some w'
    /\ trace w' = trace sample_world_nat ++ new
    /\ steps new
       = attempt_steps (entropy sample_world_nat) (draws sample_world_nat)
           1 3
    /\ (clock w' == clock sample_world_nat + slept new)%Q
    /\ attempts w' = attempts sample_world_nat + Z.of_nat 2 + 1
    /\ 0 <= p_tokens (params w') < request_batch_size sample_prefs
    /\ p_tokens (params sample_world_nat) - (Z.of_nat 2 + 1)
       <= p_tokens (params w')
    /\ remote w'
       = remote_after third_time_lucky [] 3 (remote sample_world_nat).
Proof.
  apply (retry_returns_after_transient_failures sample_prefs 2
           third_time_lucky [] sample_world_nat 2 (VInt 42)).
  - exact sample_world_serviceable.
  - exact sample_world_entropy.
  - lia.
  - simpl. lia.
  - intros i Hi. destruct i as [|[|i]]; [reflexivity|reflexivity|lia].
  - reflexivity.
Defined.

Lemma retry_stops_at_first_rate_limit_witness :
  exists (w' : world nat) (new : list event),
    retry_on_comicvine_error sample_prefs 2 then_quota [] sample_world_nat
    = Raised (RateLimitExceededError "quota") w'
    /\ after_attempts sample_prefs 2 then_quota [] 1 2 sample_world_nat
       = Some w'
    /\ trace w' = trace sample_world_nat ++ new
    /\ steps new
       = attempt_steps (entropy sample_world_nat) (draws sample_world_nat)
           1 2
    /\ (clock w' == clock sample_world_nat + slept new)%Q
    /\ attempts w' = attempts sample_world_nat + Z.of_nat 1 + 1
    /\ draws w' = (draws sample_world_nat + 1)%nat
    /\ 0 <= p_tokens (params w') < request_batch_size sample_prefs
    /\ p_tokens (params sample_world_nat) - (Z.of_nat 1 + 1)
       <= p_tokens (params w').
Proof.
  apply (retry_stops_at_first_rate_limit sample_prefs 2 then_quota []
           sample_world_nat 1 (RateLimitExceededError "quota")).
  - exact sample_world_serviceable.
  - exact sample_world_entropy.
  - lia.
  - simpl. lia.
  - intros i Hi. destruct i as [|i]; [reflexivity|lia].
  - reflexivity.
  - reflexivity.
Defined.

Lemma search_for_authors_short_circuit_witness :
  exists w1 w' : world nat,
    consume_wait sample_prefs 2 (request_interval sample_prefs)
      (clock sample_world_nat - p_update (params sample_world_nat))%Q
      sample_world_nat = Returned tt w1
    /\ retry_on_comicvine_error sample_prefs 2
         (search_for_authors sample_people ["Unknown"]) [] sample_world_nat
       = Returned (VList []) w'
    /\ 1 <= p_tokens (params w1)
    /\ p_tokens (params w') = p_tokens (params w1) - 1
    /\ p_update (params w') = p_update (params w1)
    /\ clock w' = clock w1
    /\ trace w' = trace w1 ++ [Took; Called 1]
    /\ attempts w' = attempts sample_world_nat + 1
    /\ remote w' = remote sample_world_nat.
Proof.
  apply (search_for_authors_short_circuit sample_prefs sample_people 2
           ["Unknown"] [] sample_world_nat).
  - exact sample_world_serviceable.
  - lia.
  - simpl. lia.
  - right. reflexivity.
Defined.

Lemma lookup_issue_image_urls_decorated_witness :
  exists w1 w' : world nat,
    consume_wait sample_prefs 2 (request_interval sample_prefs)
      (clock sample_world_nat - p_update (params sample_world_nat))%Q
      sample_world_nat = Returned tt w1
    /\ cache_comicvine (fun _ m => m) None "lookup_issue_image_urls"
         (retry_on_comicvine_error sample_prefs 2
            (lookup_issue_image_urls_op sample_issue 7 false)) []
         sample_world_nat
       = Returned
           (VList
              (map VStr (issue_urls (fun _ => sample_catalog 7) 7))) w'
    /\ 1 <= p_tokens (params w1)
    /\ p_tokens (params w') = p_tokens (params w1) - 1
    /\ p_update (params w') = p_update (params w1)
    /\ clock w' = clock w1
    /\ trace w' = trace w1 ++ [Took; Called 1]
    /\ attempts w' = attempts sample_world_nat + 1
    /\ remote w' = 1%nat.
Proof.
  apply (lookup_issue_image_urls_decorated sample_prefs (fun _ m => m)
           sample_issue 2 7 false [] sample_world_nat (sample_catalog 7) 1%nat).
  - exact sample_world_serviceable.
  - lia.
  - simpl. lia.
  - reflexivity.
Defined.

Lemma lookup_volume_id_decorated_witness :
  exists w1 w' : world nat,
    consume_wait sample_prefs 2 (request_interval sample_prefs)
      (clock sample_world_nat - p_update (params sample_world_nat))%Q
      sample_world_nat = Returned tt w1
    /\ cache_comicvine (fun _ m => m) None "lookup_volume_id"
         (retry_on_comicvine_error sample_prefs 2
            (lookup_volume_id sample_volume 8)) [] sample_world_nat
       = Returned VNone w'
    /\ 1 <= p_tokens (params w1)
    /\ p_tokens (params w') = p_tokens (params w1) - 1
    /\ p_update (params w') = p_update (params w1)
    /\ clock w' = clock w1
    /\ trace w' = trace w1 ++ [Took; Called 1]
    /\ attempts w' = attempts sample_world_nat + 1
    /\ remote w' = 1%nat.
Proof.
  apply (lookup_volume_id_decorated sample_prefs (fun _ m => m)
           sample_volume 2 8 [] sample_world_nat None 1%nat).
  - exact sample_world_serviceable.
  - lia.
  - simpl. lia.
  - reflexivity.
Defined.
